(** * Quadratic line search (MR::Math::QuadraticLineSearch)

    A shallow embedding of the class template [QuadraticLineSearch<ValueType>]
    at [ValueType = double].  Values are IEEE 754 binary64 numbers (Rocq's
    primitive [float]), so that the arithmetic, the comparisons, [NAN] and
    [std::isfinite] are those the compiled code uses.  The [mutable] status
    field, the functor passed by reference, the progress bar and the
    diagnostic stream are threaded explicitly through a [world] record. *)

From Stdlib Require Import Floats Bool ZArith List String Lia.
Import ListNotations.

Local Open Scope float_scope.

(** Decimal literals denote the nearest double, as they do in the source. *)
Set Warnings "-inexact-float".

(** ** Numeric vocabulary of the source *)

(** [a > b] on doubles is [b < a]; both are false when an operand is NaN. *)
Notation "x >? y" := (PrimFloat.ltb y x)
  (at level 70, no associativity, only parsing) : float_scope.

(** The [NAN] macro. *)
Definition NAN : float := nan.

(** [std::min (a, b)] is [(b < a) ? b : a]. *)
Definition std_min (a b : float) : float := if b <? a then b else a.

(** [std::abs] on a double. *)
Definition std_abs (x : float) : float := abs x.

(** [std::isfinite]: neither NaN nor an infinity. *)
Definition isfinite (x : float) : bool := negb (is_nan x || is_infinity x).

(** ** The optimiser object *)

Inductive return_t : Set :=
  SUCCESS | EXECUTING | OUTSIDE_BOUNDS | NONCONVEX | NONCONVERGING.

(** The private members, in declaration order.  [max_iters] is a [size_t];
    the loop counter never exceeds it before the loop test fails, so no
    wrap-around is involved and [nat] is used. *)
Record QuadraticLineSearch : Type := mkQuadraticLineSearch {
  init_lower : float;
  init_mid : float;
  init_upper : float;
  value_tolerance : float;
  function_tolerance : float;
  exit_outside_bounds : bool;
  max_iters : nat;
  message : string;
  status : return_t
}.

(** The constructor [QuadraticLineSearch (lower_bound, upper_bound)]. *)
Definition construct (lower_bound upper_bound : float) : QuadraticLineSearch :=
  {| init_lower := lower_bound;
     init_mid := 0.5 * (lower_bound + upper_bound);
     init_upper := upper_bound;
     value_tolerance := 0.001 * (upper_bound - lower_bound);
     function_tolerance := 0.0;
     exit_outside_bounds := true;
     max_iters := 50;
     message := EmptyString;
     status := SUCCESS |}.

Definition set_lower_bound (i : float) (q : QuadraticLineSearch) :=
  mkQuadraticLineSearch i (init_mid q) (init_upper q) (value_tolerance q)
    (function_tolerance q) (exit_outside_bounds q) (max_iters q) (message q) (status q).

Definition set_init_estimate (i : float) (q : QuadraticLineSearch) :=
  mkQuadraticLineSearch (init_lower q) i (init_upper q) (value_tolerance q)
    (function_tolerance q) (exit_outside_bounds q) (max_iters q) (message q) (status q).

Definition set_upper_bound (i : float) (q : QuadraticLineSearch) :=
  mkQuadraticLineSearch (init_lower q) (init_mid q) i (value_tolerance q)
    (function_tolerance q) (exit_outside_bounds q) (max_iters q) (message q) (status q).

Definition set_value_tolerance (i : float) (q : QuadraticLineSearch) :=
  mkQuadraticLineSearch (init_lower q) (init_mid q) (init_upper q) i
    (function_tolerance q) (exit_outside_bounds q) (max_iters q) (message q) (status q).

Definition set_function_tolerance (i : float) (q : QuadraticLineSearch) :=
  mkQuadraticLineSearch (init_lower q) (init_mid q) (init_upper q) (value_tolerance q)
    i (exit_outside_bounds q) (max_iters q) (message q) (status q).

Definition set_exit_if_outside_bounds (i : bool) (q : QuadraticLineSearch) :=
  mkQuadraticLineSearch (init_lower q) (init_mid q) (init_upper q) (value_tolerance q)
    (function_tolerance q) i (max_iters q) (message q) (status q).

Definition set_max_iterations (i : nat) (q : QuadraticLineSearch) :=
  mkQuadraticLineSearch (init_lower q) (init_mid q) (init_upper q) (value_tolerance q)
    (function_tolerance q) (exit_outside_bounds q) i (message q) (status q).

Definition set_message (i : string) (q : QuadraticLineSearch) :=
  mkQuadraticLineSearch (init_lower q) (init_mid q) (init_upper q) (value_tolerance q)
    (function_tolerance q) (exit_outside_bounds q) (max_iters q) i (status q).

Definition get_status (q : QuadraticLineSearch) : return_t := status q.

(** An assignment [status = s] to the mutable member. *)
Definition assign_status (s : return_t) (q : QuadraticLineSearch) :=
  mkQuadraticLineSearch (init_lower q) (init_mid q) (init_upper q) (value_tolerance q)
    (function_tolerance q) (exit_outside_bounds q) (max_iters q) (message q) s.

(** ** Cost functions

    The template parameter [Functor] is any class with a call operator taking
    one value and returning its cost.  It is passed by non-const reference, so
    a call may change the functor; [call] returns the cost and the functor
    after the call. *)
Class Functor (F : Type) : Type := call : F -> float -> float * F.

(** A deterministic cost function: a pure function of its argument. *)
#[export] Instance pure_functor : Functor (float -> float) :=
  fun f x => (f x, f).

(** A deterministic cost function that records the points at which it is
    evaluated, in order. *)
Record recording : Type := mkRecording {
  cost : float -> float;
  evaluated : list float
}.

#[export] Instance recording_functor : Functor recording :=
  fun r x => (cost r x, mkRecording (cost r) (evaluated r ++ [x])).

(** ** The state an invocation acts on *)

(** Lines written to [std::cerr] by [verbose]; numbers are kept as numbers
    instead of being rendered by [str]. *)
Inductive trace_line : Type :=
| Text (s : string)
| Pos (l m u : float)
| Value (fl fm fu : float)
| NewPoint (n fn : float).

Record world (F : Type) : Type := mkWorld {
  this : QuadraticLineSearch;
  functor : F;
  progress : option nat;
  cerr : list trace_line
}.
Arguments mkWorld {F}.
Arguments this {F}.
Arguments functor {F}.
Arguments progress {F}.
Arguments cerr {F}.

(** The local variables [l, m, u, fl, fm, fu] of an invocation. *)
Record bracket : Type := mkBracket {
  b_l : float; b_m : float; b_u : float;
  b_fl : float; b_fm : float; b_fu : float
}.

(** What executing the loop body once leads to: a [return v] or the end of
    the body with new values of the local variables. *)
Inductive flow (F : Type) : Type :=
| Return (v : float) (w : world F)
| Continue (b : bracket) (w : world F).
Arguments Return {F}.
Arguments Continue {F}.

Section Invocation.

Context {F : Type} `{Functor F}.

Definition write_status (s : return_t) (w : world F) : world F :=
  mkWorld (assign_status s (this w)) (functor w) (progress w) (cerr w).

Definition with_functor (g : F) (w : world F) : world F :=
  mkWorld (this w) g (progress w) (cerr w).

(** The progress bar, when there is one, is advanced by one step. *)
Definition advance_progress (w : world F) : world F :=
  mkWorld (this w) (functor w) (option_map S (progress w)) (cerr w).

(** [std::cerr << ...] *)
Definition print (ls : list trace_line) (w : world F) : world F :=
  mkWorld (this w) (functor w) (progress w) (cerr w ++ ls).

(** [ValueType l = init_lower, m = init_mid, u = init_upper;
     ValueType fl = functor (l), fm = functor (m), fu = functor (u);] *)
Definition initialise (w : world F) : bracket * world F :=
  let l := init_lower (this w) in
  let m := init_mid (this w) in
  let u := init_upper (this w) in
  let '(fl, g) := call (functor w) l in
  let '(fm, g) := call g m in
  let '(fu, g) := call g u in
  (mkBracket l m u fl fm fu, with_functor g w).

(** The body of the [while] loop of [operator()]. *)
Definition iteration (b : bracket) (w : world F) : flow F :=
  let '(mkBracket l m u fl fm fu) := b in
  if fm >? (fl + ((fu - fl) * (m - l) / (u - l))) then
    if (std_min (m - l) (u - m) <? value_tolerance (this w))
       || (std_abs ((fu - fl) / (0.5 * (fu + fl))) <? function_tolerance (this w))
    then Return m (write_status SUCCESS w)
    else Return NAN (write_status NONCONVEX w)
  else
    let sl := (fm - fl) / (m - l) in
    let su := (fu - fm) / (u - m) in
    let n := (0.5 * (l + m)) - ((sl * (u - l)) / (2.0 * (su - sl))) in
    let '(fn, g) := call (functor w) n in
    let w := with_functor g w in
    if negb (isfinite fn) then Return m w
    else
      let after :=
        if n <? l then
          if exit_outside_bounds (this w) then Return NAN (write_status OUTSIDE_BOUNDS w)
          else
            let u := m in let fu := fm in
            let m := l in let fm := fl in
            let l := n in let fl := fn in
            Continue (mkBracket l m u fl fm fu) w
        else if n <? m then
          if fn >? fm then
            let l := n in let fl := fn in
            Continue (mkBracket l m u fl fm fu) w
          else
            let u := m in let fu := fm in
            let m := n in let fm := fn in
            Continue (mkBracket l m u fl fm fu) w
        else if n =? m then Return n w
        else if n <? u then
          if fn >? fm then
            let u := n in let fu := fn in
            Continue (mkBracket l m u fl fm fu) w
          else
            let l := m in let fl := fm in
            let m := n in let fm := fn in
            Continue (mkBracket l m u fl fm fu) w
        else
          if exit_outside_bounds (this w) then Return NAN (write_status OUTSIDE_BOUNDS w)
          else
            let l := m in let fl := fm in
            let m := u in let fm := fu in
            let u := n in let fu := fn in
            Continue (mkBracket l m u fl fm fu) w
      in
      match after with
      | Return v w => Return v w
      | Continue b w =>
          let w := advance_progress w in
          if (b_u b - b_l b) <? value_tolerance (this w)
          then Return (b_m b) (write_status SUCCESS w)
          else Continue b w
      end.

(** [while (iters++ < max_iters) { ... } status = NONCONVERGING; return NAN;]
    with [remaining = max_iters - iters] at the loop test. *)
Fixpoint while_loop (remaining : nat) (b : bracket) (w : world F) : float * world F :=
  match remaining with
  | O => (NAN, write_status NONCONVERGING w)
  | S remaining' =>
      match iteration b w with
      | Return v w' => (v, w')
      | Continue b' w' => while_loop remaining' b' w'
      end
  end.

(** [operator()]: the progress bar exists when the message is not empty. *)
Definition operator_call (q : QuadraticLineSearch) (f : F) : float * world F :=
  let w := mkWorld (assign_status EXECUTING q) f
             (if (String.length (message q) =? 0)%nat then None else Some O) [] in
  let '(b, w) := initialise w in
  while_loop (max_iters q) b w.

(** The body of the [while] loop of [verbose]. *)
Definition verbose_iteration (b : bracket) (w : world F) : flow F :=
  let '(mkBracket l m u fl fm fu) := b in
  if fm >? (fl + ((fu - fl) * (m - l) / (u - l))) then
    if std_min (m - l) (u - m) <? value_tolerance (this w)
    then
      let w := print [Text "Returning due to nonconvexity, through successfully"] w in
      Return m (write_status SUCCESS w)
    else
      let w := write_status NONCONVEX w in
      Return NAN (print [Text "Returning due to nonconvexity, unsuccessfully"] w)
  else
    let sl := (fm - fl) / (m - l) in
    let su := (fu - fm) / (u - m) in
    let n := (0.5 * (l + m)) - ((sl * (u - l)) / (2.0 * (su - sl))) in
    let '(fn, g) := call (functor w) n in
    let w := with_functor g w in
    let w := print [NewPoint n fn] w in
    let after :=
      if n <? l then
        if exit_outside_bounds (this w) then Return NAN (write_status OUTSIDE_BOUNDS w)
        else
          let u := m in let fu := fm in
          let m := l in let fm := fl in
          let l := n in let fl := fn in
          Continue (mkBracket l m u fl fm fu) w
      else if n <? m then
        if fn >? fm then
          let l := n in let fl := fn in
          Continue (mkBracket l m u fl fm fu) w
        else
          let u := m in let fu := fm in
          let m := n in let fm := fn in
          Continue (mkBracket l m u fl fm fu) w
      else if n =? m then Return n w
      else if n <? u then
        if fn >? fm then
          let u := n in let fu := fn in
          Continue (mkBracket l m u fl fm fu) w
        else
          let l := m in let fl := fm in
          let m := n in let fm := fn in
          Continue (mkBracket l m u fl fm fu) w
      else
        if exit_outside_bounds (this w) then Return NAN (write_status OUTSIDE_BOUNDS w)
        else
          let l := m in let fl := fm in
          let m := u in let fm := fu in
          let u := n in let fu := fn in
          Continue (mkBracket l m u fl fm fu) w
    in
    match after with
    | Return v w => Return v w
    | Continue b w =>
        let w := print [Text ""; Pos (b_l b) (b_m b) (b_u b);
                        Value (b_fl b) (b_fm b) (b_fu b)] w in
        if (b_u b - b_l b) <? value_tolerance (this w)
        then
          let w := write_status SUCCESS w in
          Return (b_m b) (print [Text "Returning successfully"] w)
        else Continue b w
    end.

Fixpoint verbose_loop (remaining : nat) (b : bracket) (w : world F) : float * world F :=
  match remaining with
  | O =>
      let w := write_status NONCONVERGING w in
      (NAN, print [Text "Returning due to too many iterations"] w)
  | S remaining' =>
      match verbose_iteration b w with
      | Return v w' => (v, w')
      | Continue b' w' => verbose_loop remaining' b' w'
      end
  end.

Definition verbose (q : QuadraticLineSearch) (f : F) : float * world F :=
  let w := mkWorld (assign_status EXECUTING q) f None [] in
  let '(b, w) := initialise w in
  let w := print [Text "Initialising quadratic line search";
                  Text "        Lower        Mid         Upper";
                  Pos (b_l b) (b_m b) (b_u b);
                  Value (b_fl b) (b_fm b) (b_fu b)] w in
  verbose_loop (max_iters q) b w.

End Invocation.

(** The value returned by an invocation and the status it leaves behind. *)
Definition returned {F} (r : float * world F) : float := fst r.
Definition status_after {F} (r : float * world F) : return_t := get_status (this (snd r)).

(** ** Cost functions and configurations of the documented scenarios *)

(** [f(x) = (x-2)^2] *)
Definition parabola (x : float) : float := (x - 2) * (x - 2).

(** [f(x) = -(x-2)^2] *)
Definition concave_parabola (x : float) : float := - ((x - 2) * (x - 2)).

(** [f(x) = x^2] *)
Definition square (x : float) : float := x * x.

(** [f(x) = (x-2)^4] *)
Definition quartic (x : float) : float := ((x - 2) * (x - 2)) * ((x - 2) * (x - 2)).

(** [f(x) = 1] *)
Definition flat (x : float) : float := 1.

(** Lower bound 0, initial estimate 1, upper bound 4, everything else as the
    constructor leaves it. *)
Definition bracket_0_1_4 : QuadraticLineSearch :=
  set_init_estimate 1 (construct 0 4).

(** ** Unrolling the loop *)

Section Unrolling.

Context {F : Type} `{Functor F}.

(** The state after [k] complete passes through the loop body, when none of
    them returned. *)
Fixpoint iterate (k : nat) (b : bracket) (w : world F) : option (bracket * world F) :=
  match k with
  | O => Some (b, w)
  | S k' =>
      match iteration b w with
      | Return _ _ => None
      | Continue b' w' => iterate k' b' w'
      end
  end.

(** The local variables and the world with which the loop is entered. *)
Definition entry (q : QuadraticLineSearch) (f : F) : bracket * world F :=
  initialise
    (mkWorld (assign_status EXECUTING q) f
       (if (String.length (message q) =? 0)%nat then None else Some O) []).

(** The interpolated candidate of a pass through the loop body. *)
Definition candidate (b : bracket) : float :=
  let '(mkBracket l m u fl fm fu) := b in
  let sl := (fm - fl) / (m - l) in
  let su := (fu - fm) / (u - m) in
  (0.5 * (l + m)) - ((sl * (u - l)) / (2.0 * (su - sl))).

(** The chord test that opens the loop body. *)
Definition above_chord (b : bracket) : bool :=
  let '(mkBracket l m u fl fm fu) := b in
  fm >? (fl + ((fu - fl) * (m - l) / (u - l))).

End Unrolling.

(** Everything an optimiser holds except its status. *)
Definition configuration (q : QuadraticLineSearch) :=
  (init_lower q, init_mid q, init_upper q, value_tolerance q,
   function_tolerance q, exit_outside_bounds q, max_iters q, message q).

(** [q'] is [q] up to the status field. *)
Definition only_status_differs (q q' : QuadraticLineSearch) : Prop :=
  q' = assign_status (status q') q.

(** ** Properties of the bracket *)

(** [l < m < u] *)
Definition strictly_bracketed (b : bracket) : bool :=
  (b_l b <? b_m b) && (b_m b <? b_u b).

(** [l <= m <= u] *)
Definition bracketed (b : bracket) : bool :=
  (b_l b <=? b_m b) && (b_m b <=? b_u b).

(** The candidate of a pass is an ordered number: it is not NaN. *)
Definition ordered_candidate (b : bracket) : bool :=
  negb (is_nan (candidate b)).

(** The candidate of a pass is an ordered number other than [l] and [u]. *)
Definition apart_candidate (b : bracket) : bool :=
  negb (is_nan (candidate b))
  && negb (candidate b =? b_l b) && negb (candidate b =? b_u b).

Section Runs.

Context {F : Type} `{Functor F}.

(** [P] holds of the local variables at the start of each of the first [k]
    passes through the loop body. *)
Fixpoint every_pass (P : bracket -> bool) (k : nat) (b : bracket) (w : world F) : bool :=
  match k with
  | O => true
  | S k' =>
      P b &&
      match iteration b w with
      | Return _ _ => true
      | Continue b' w' => every_pass P k' b' w'
      end
  end.

(** The statements of the loop body that follow the bracket update. *)
Definition conclude (after : flow F) : flow F :=
  match after with
  | Return v w => Return v w
  | Continue b w =>
      let w := advance_progress w in
      if (b_u b - b_l b) <? value_tolerance (this w)
      then Return (b_m b) (write_status SUCCESS w)
      else Continue b w
  end.

(** The bracket update in the words of the specification: five cases by the
    position of [n], each with its own condition.  [None] when no case
    applies. *)
Definition five_cases (b : bracket) (n fn : float) (w : world F) : option (flow F) :=
  let '(mkBracket l m u fl fm fu) := b in
  if n <? l then
    Some (if exit_outside_bounds (this w)
          then Return NAN (write_status OUTSIDE_BOUNDS w)
          else Continue (mkBracket n l m fn fl fm) w)
  else if (l <=? n) && (n <? m) then
    Some (if fn >? fm
          then Continue (mkBracket n m u fn fm fu) w
          else Continue (mkBracket l n m fl fn fm) w)
  else if n =? m then
    Some (Return n w)
  else if (m <? n) && (n <? u) then
    Some (if fn >? fm
          then Continue (mkBracket l m n fl fm fn) w
          else Continue (mkBracket m n u fm fn fu) w)
  else if u <=? n then
    Some (if exit_outside_bounds (this w)
          then Return NAN (write_status OUTSIDE_BOUNDS w)
          else Continue (mkBracket m u n fm fu fn) w)
  else None.

End Runs.

(** The number of cost evaluations after the three that initialise the
    bracket: one per interpolation step. *)
Definition interpolation_steps (r : float * world recording) : nat :=
  (List.length (evaluated (functor (snd r))) - 3)%nat.

(** The two worlds hold the same optimiser and the cost function [f]. *)
Definition agree (f : float -> float) (w1 w2 : world (float -> float)) : Prop :=
  this w1 = this w2 /\ functor w1 = f /\ functor w2 = f.

(** Two passes, or two invocations, end the same way. *)
Definition flows_agree (f : float -> float) (s1 s2 : flow (float -> float)) : Prop :=
  match s1, s2 with
  | Return v1 w1, Return v2 w2 => v1 = v2 /\ agree f w1 w2
  | Continue b1 w1, Continue b2 w2 => b1 = b2 /\ agree f w1 w2
  | _, _ => False
  end.

(** ** What a caller can read off a finished invocation *)

(** The three statuses that report a failure. *)
Definition failure (s : return_t) : bool :=
  match s with
  | OUTSIDE_BOUNDS | NONCONVEX | NONCONVERGING => true
  | SUCCESS | EXECUTING => false
  end.

(** The bracket holds points at which the cost [c] has been evaluated,
    together with their costs. *)
Definition sampled (c : float -> float) (b : bracket) (w : world recording) : Prop :=
  cost (functor w) = c
  /\ b_fl b = c (b_l b) /\ b_fm b = c (b_m b) /\ b_fu b = c (b_u b)
  /\ In (b_l b) (evaluated (functor w))
  /\ In (b_m b) (evaluated (functor w))
  /\ In (b_u b) (evaluated (functor w)).

(** The bracket update of the loop body, the [if] chain on the position of
    [n]: the local variables with which the pass leaves the chain, or [None]
    when the pass returns from within it. *)
Definition bracket_update (exit : bool) (b : bracket) (n fn : float) : option bracket :=
  let '(mkBracket l m u fl fm fu) := b in
  if n <? l then
    if exit then None
    else
      let u := m in let fu := fm in
      let m := l in let fm := fl in
      let l := n in let fl := fn in
      Some (mkBracket l m u fl fm fu)
  else if n <? m then
    if fn >? fm then
      let l := n in let fl := fn in
      Some (mkBracket l m u fl fm fu)
    else
      let u := m in let fu := fm in
      let m := n in let fm := fn in
      Some (mkBracket l m u fl fm fu)
  else if n =? m then None
  else if n <? u then
    if fn >? fm then
      let u := n in let fu := fn in
      Some (mkBracket l m u fl fm fu)
    else
      let l := m in let fl := fm in
      let m := n in let fm := fn in
      Some (mkBracket l m u fl fm fu)
  else
    if exit then None
    else
      let l := m in let fl := fm in
      let m := u in let fm := fu in
      let u := n in let fu := fn in
      Some (mkBracket l m u fl fm fu).

(** The bracket is ordered and lies within the configured bounds. *)
Definition within_bounds (q : QuadraticLineSearch) (b : bracket) : bool :=
  (init_lower q <=? b_l b) && (b_l b <=? b_m b)
  && (b_m b <=? b_u b) && (b_u b <=? init_upper q).

(** The local variables and the world with which the loop of [verbose] is
    entered. *)
Definition verbose_entry {F : Type} `{Functor F} (q : QuadraticLineSearch) (f : F)
  : bracket * world F :=
  let '(b, w) := initialise (mkWorld (assign_status EXECUTING q) f None []) in
  (b, print [Text "Initialising quadratic line search";
             Text "        Lower        Mid         Upper";
             Pos (b_l b) (b_m b) (b_u b);
             Value (b_fl b) (b_fm b) (b_fu b)] w).

(** In a pass of [operator()] the test for a non-finite cost does not fire:
    the pass ends at the chord test or the cost of its candidate is finite. *)
Definition finite_pass (f : float -> float) (b : bracket) : bool :=
  above_chord b || isfinite (f (candidate b)).

(** * Fixel format helpers (MR::FixelFormat)

    The helpers of [fixel_format/helpers.h].  Headers are read through
    [name ()], [keyval ()], [ndim ()] and [size (axis)] only.  What the file
    takes from elsewhere is a parameter of the section below: the header key
    and the supported suffixes of [fixel_format/keys.h], [std::stoul], [str],
    the width of [unsigned long], and the file-system and image calls
    [Path::exists], [Path::is_dir], [File::mkdir], [Path::Dir],
    [Path::join], [Path::has_suffix] and [Header::open]. *)

Module FixelFormat.

(** What can be thrown: an [MR::Exception] with its message, or one of the
    standard exceptions of [std::stoul] and [std::map::at]. *)
Inductive exn : Type :=
| Exception (msg : string)
| std_invalid_argument
| std_out_of_range.

Inductive outcome (A : Type) : Type :=
| Returns (a : A)
| Throws (e : exn).
Arguments Returns {A}.
Arguments Throws {A}.

Definition bind {A B : Type} (c : outcome A) (k : A -> outcome B) : outcome B :=
  match c with
  | Returns a => k a
  | Throws e => Throws e
  end.

Notation "x <- c ;; k" := (bind c (fun x => k))
  (at level 61, c at next level, right associativity).
Notation "c ;;; k" := (bind c (fun _ => k))
  (at level 61, right associativity).

(** What the helpers read of an image header.  [keyval] is the lookup of the
    header's [std::map<std::string, std::string>]; [size] is signed. *)
Record Header : Type := mkHeader {
  name : string;
  keyval : string -> option string;
  ndim : nat;
  size : nat -> Z
}.

(** [keyval ().count (key)] converted to [bool]. *)
Definition count (h : Header) (key : string) : bool :=
  match keyval h key with Some _ => true | None => false end.

(** [keyval ().at (key)] throws [std::out_of_range] for a missing key. *)
Definition at_key (h : Header) (key : string) : outcome string :=
  match keyval h key with Some v => Returns v | None => Throws std_out_of_range end.

Section Helpers.

Variable n_fixels_key : string.
Variable supported_fixel_formats : list string.
Variable stoul : string -> outcome Z.
Variable str : string -> string.
Variable unsigned_long_bits : Z.

(** The conversion [(unsigned long) x] of a signed size. *)
Definition to_unsigned_long (x : Z) : Z := (x mod 2 ^ unsigned_long_bits)%Z.

Definition is_index_image (i : Header) : bool := count i n_fixels_key.

Definition check_index_image (i : Header) : outcome unit :=
  if negb (is_index_image i)
  then Throws (Exception (name i ++ " is not a valid fixel index image. Header key "
                            ++ n_fixels_key ++ " not found")%string)
  else Returns tt.

Definition is_data_image (d : Header) : bool :=
  (ndim d =? 3)%nat && (size d 2 =? 1)%Z.

Definition check_data_image (d : Header) : outcome unit :=
  if negb (is_data_image d)
  then Throws (Exception (name d ++ " is not a valid fixel data image. Expected a 3-dimensionl image of size n x m x 1")%string)
  else Returns tt.

Definition fixels_match (index_h data_h : Header) : outcome bool :=
  let fixels_match := false in
  if is_index_image index_h then
    v <- at_key index_h n_fixels_key ;;
    n <- stoul v ;;
    let fixels_match := (n =? to_unsigned_long (size data_h 0))%Z in
    Returns fixels_match
  else Returns fixels_match.

Definition check_fixel_size (index_h data_h : Header) : outcome unit :=
  check_index_image index_h ;;;
  check_data_image data_h ;;;
  m <- fixels_match index_h data_h ;;
  if negb m
  then Throws (Exception ("Fixel number mismatch between index image " ++ name index_h
                            ++ " and data image " ++ name data_h)%string)
  else Returns tt.

(** The file system and the images in it, as the helpers use them. *)
Variable FS : Type.
Variable Path_exists : FS -> string -> outcome bool.
Variable Path_is_dir : FS -> string -> outcome bool.
Variable File_mkdir : FS -> string -> outcome FS.
Variable Path_Dir : FS -> string -> outcome (list string).
Variable Path_join : string -> string -> string.
Variable Path_has_suffix : string -> list string -> bool.
Variable Header_open : FS -> string -> outcome Header.

(** Returns [exists] and the file system after the call. *)
Definition check_fixel_folder (fs : FS) (path : string) (create_if_missing : bool)
  : outcome (bool * FS) :=
  exists_ <- Path_exists fs path ;;
  if negb exists_ then
    if create_if_missing
    then fs' <- File_mkdir fs path ;; Returns (exists_, fs')
    else Throws (Exception ("Fixel directory " ++ str path ++ " does not exist")%string)
  else
    is_dir <- Path_is_dir fs path ;;
    if negb is_dir
    then Throws (Exception (str path ++ " is not a directory")%string)
    else Returns (exists_, fs).

(** The [while] loop of [find_index_header] over the names the directory
    walker still has to deliver; [read_name ()] delivers the empty string
    when none is left.  Returns [index_found] and [H]. *)
Fixpoint find_index_loop (fs : FS) (fixel_folder_path : string)
    (names : list string) (H : Header) : outcome (bool * Header) :=
  match names with
  | [] => Returns (false, H)
  | fname :: names' =>
      if (String.length fname =? 0)%nat then Returns (false, H)
      else
        let full_path := Path_join fixel_folder_path fname in
        if Path_has_suffix fname supported_fixel_formats then
          H' <- Header_open fs full_path ;;
          if is_index_image H' then Returns (true, H')
          else find_index_loop fs fixel_folder_path names' H'
        else find_index_loop fs fixel_folder_path names' H
  end.

(** [H0] is the default-constructed [Header]. *)
Definition find_index_header (H0 : Header) (fs : FS) (fixel_folder_path : string)
  : outcome Header :=
  checked <- check_fixel_folder fs fixel_folder_path false ;;
  let fs := snd checked in
  names <- Path_Dir fs fixel_folder_path ;;
  found <- find_index_loop fs fixel_folder_path names H0 ;;
  if negb (fst found)
  then Throws (Exception ("Could not find index image in directory "
                            ++ fixel_folder_path)%string)
  else Returns (snd found).

End Helpers.

(** A small fixel folder and its images, to run the helpers on. *)
Module Sample.

Local Open Scope string_scope.

Definition n_fixels_key : string := "nfixels".

Definition supported_fixel_formats : list string := ["mif"; "nii"].

(** Converts the two counts the sample images store; anything else is
    refused the way [std::stoul] refuses a string without digits. *)
Definition stoul (s : string) : outcome Z :=
  if String.eqb s "5" then Returns 5%Z
  else if String.eqb s "7" then Returns 7%Z
  else Throws std_invalid_argument.

Definition str (s : string) : string := s.

Definition unsigned_long_bits : Z := 64.

(** An index image that counts five fixels. *)
Definition index_image : Header :=
  mkHeader "fixels/index.mif"
    (fun key => if String.eqb key n_fixels_key then Some "5"%string else None)
    4 (fun _ => 1%Z).

(** An index image whose count is not a number. *)
Definition garbled_index_image : Header :=
  mkHeader "fixels/index.mif"
    (fun key => if String.eqb key n_fixels_key then Some "five"%string else None)
    4 (fun _ => 1%Z).

(** A data image of size 5 x 1 x 1. *)
Definition data_image : Header :=
  mkHeader "fixels/afd.mif" (fun _ => None) 3
    (fun axis => match axis with O => 5%Z | _ => 1%Z end).

(** A four-dimensional image without the fixel-count key. *)
Definition plain_image : Header :=
  mkHeader "fixels/dwi.mif" (fun _ => None) 4 (fun _ => 2%Z).

(** The folder [fixels] holds [notes.txt], [afd.mif] and [index.mif], in the
    order the directory walker delivers them; nothing else exists. *)
Definition FS : Type := unit.

Definition Path_exists (fs : FS) (path : string) : outcome bool :=
  Returns (String.eqb path "fixels").

Definition Path_is_dir (fs : FS) (path : string) : outcome bool :=
  Returns (String.eqb path "fixels").

Definition File_mkdir (fs : FS) (path : string) : outcome FS := Returns fs.

Definition Path_Dir (fs : FS) (path : string) : outcome (list string) :=
  Returns ["notes.txt"; "afd.mif"; "index.mif"]%string.

Definition Path_join (dir fname : string) : string := (dir ++ "/" ++ fname)%string.

Definition Path_has_suffix (fname : string) (suffixes : list string) : bool :=
  existsb (fun suffix =>
             String.eqb
               (substring (String.length fname - String.length suffix)
                  (String.length suffix) fname)
               suffix)
    suffixes.

Definition Header_open (fs : FS) (path : string) : outcome Header :=
  if String.eqb path "fixels/index.mif" then Returns index_image
  else if String.eqb path "fixels/afd.mif" then Returns data_image
  else Throws (Exception "unsupported image"%string).

End Sample.

End FixelFormat.

(** * The script [average_response]

    The script reads [sys.argv], the input files, and writes one output file.
    Parameters of the section below: what [readlines ()] delivers for a file
    name ([None] when [open] raises [IOError]), whether the output file can be
    opened for writing, [float (s)] on a field ([None] when it raises
    [ValueError]), [float (n)] and [str (n)] on a count, and the rendering
    ["{0:.5f}".format (x)]. *)

Module AverageResponse.

Local Open Scope string_scope.

(** How a run of the script ends: normally, with the lines written to the
    output file, by [exit (code)], or by an uncaught exception. *)
Inductive ending : Type :=
| Finished (written : list string)
| SystemExit (code : nat)
| IndexError
| IOError
| ValueError.

(** What a run prints and how it ends. *)
Record run : Type := mkRun {
  printed : list string;
  ended : ending
}.

Definition is_space (c : Ascii.ascii) : bool :=
  match Ascii.nat_of_ascii c with
  | 9 | 10 | 11 | 12 | 13 | 32 => true
  | _ => false
  end%nat.

(** [s.split ()]: the maximal runs of characters that are not white space;
    [word] is the run being read. *)
Fixpoint split_from (word : string) (s : string) : list string :=
  match s with
  | EmptyString =>
      match word with EmptyString => [] | _ => [word] end
  | String c s' =>
      if is_space c then
        match word with
        | EmptyString => split_from EmptyString s'
        | _ => word :: split_from EmptyString s'
        end
      else split_from (word ++ String c EmptyString) s'
  end.

Definition split (s : string) : list string := split_from EmptyString s.

Section Script.

Variable readlines : string -> option (list string).
Variable writable : string -> bool.
Variable float_of_string : string -> option float.
Variable float_of_int : nat -> float.
Variable str : nat -> string.
Variable format_5f : float -> string.

Definition usage : string :=
  "example usage: average_response input_response1.txt input_response2.txt input_response3.txt ... output_average_response.txt".

Definition coefficients_message (file : string) : string :=
  "Error in file " ++ file ++ ": multi-shell response functions must have the same number of coefficients per b-value (line)".

Definition bvalues_message (file : string) : string :=
  "Error in file " ++ file ++ ": Input files do not contain the same number of b-values".

(** [for l in lines: if len (l.split ()) != num_coeff: errorMessage (...)];
    delivers the message when [errorMessage] is called. *)
Fixpoint check_coefficients (file : string) (num_coeff : nat) (lines : list string)
  : option string :=
  match lines with
  | [] => None
  | l :: lines' =>
      if negb (List.length (split l) =? num_coeff)%nat
      then Some (coefficients_message file)
      else check_coefficients file num_coeff lines'
  end.

(** The passes of the first loop for [i > 1]; [inr] is how the run ends
    early. *)
Fixpoint check_others (files : list string) (num_bvals num_coeff : nat)
  : unit + run :=
  match files with
  | [] => inl tt
  | file :: files' =>
      match readlines file with
      | None => inr (mkRun [] IOError)
      | Some lines =>
          if negb (List.length lines =? num_bvals)%nat
          then inr (mkRun [bvalues_message file] (SystemExit 1))
          else
            match check_coefficients file num_coeff lines with
            | Some msg => inr (mkRun [msg] (SystemExit 1))
            | None => check_others files' num_bvals num_coeff
            end
      end
  end.

(** The first loop: the pass for [i == 1] sets [num_bvals] and [num_coeff],
    the later passes compare with them. *)
Definition check_inputs (files : list string) : (nat * nat) + run :=
  match files with
  | [] => inl (O, O)
  | file :: files' =>
      match readlines file with
      | None => inr (mkRun [] IOError)
      | Some lines =>
          let num_bvals := List.length lines in
          match lines with
          | [] => inr (mkRun [] IndexError)
          | first :: _ =>
              let num_coeff := List.length (split first) in
              match check_coefficients file num_coeff lines with
              | Some msg => inr (mkRun [msg] (SystemExit 1))
              | None =>
                  match check_others files' num_bvals num_coeff with
                  | inl _ => inl (num_bvals, num_coeff)
                  | inr r => inr r
                  end
              end
          end
      end
  end.

(** [for c in range (0, num_coeff): average_response[l][c] =
    average_response[l][c] + float (coeff[c]) / float (num_subjects)], on
    the entries of row [l] from column [c] on. *)
Fixpoint add_coefficients (num_subjects : nat) (coeff : list string) (c : nat)
    (row : list float) : list float + ending :=
  match row with
  | [] => inl []
  | a :: row' =>
      match nth_error coeff c with
      | None => inr IndexError
      | Some field =>
          match float_of_string field with
          | None => inr ValueError
          | Some x =>
              let a' := (a + x / float_of_int num_subjects)%float in
              match add_coefficients num_subjects coeff (S c) row' with
              | inl row'' => inl (a' :: row'')
              | inr e => inr e
              end
          end
      end
  end.

(** [for l in range (0, num_bvals): coeff = lines[l].split (); ...], on the
    rows from [l] on. *)
Fixpoint add_lines (num_subjects : nat) (lines : list string) (l : nat)
    (rows : list (list float)) : list (list float) + ending :=
  match rows with
  | [] => inl []
  | row :: rows' =>
      match nth_error lines l with
      | None => inr IndexError
      | Some line =>
          match add_coefficients num_subjects (split line) O row with
          | inr e => inr e
          | inl row' =>
              match add_lines num_subjects lines (S l) rows' with
              | inl rows'' => inl (row' :: rows'')
              | inr e => inr e
              end
          end
      end
  end.

(** The second loop over the input files. *)
Fixpoint add_subjects (num_subjects : nat) (files : list string)
    (average_response : list (list float)) : list (list float) + ending :=
  match files with
  | [] => inl average_response
  | file :: files' =>
      match readlines file with
      | None => inr IOError
      | Some lines =>
          match add_lines num_subjects lines O average_response with
          | inr e => inr e
          | inl average_response' =>
              add_subjects num_subjects files' average_response'
          end
      end
  end.

(** One line of the output: every entry rendered and followed by a space,
    then a newline. *)
Definition line_out (row : list float) : string :=
  fold_left (fun line x => line ++ format_5f x ++ " ") row EmptyString
  ++ String (Ascii.ascii_of_nat 10) EmptyString.

(** The script; [argv] is [sys.argv]. *)
Definition main (argv : list string) : run :=
  if (List.length argv <? 3)%nat then mkRun [usage] (SystemExit 1)
  else
    let num_subjects := (List.length argv - 2)%nat in
    let out := ["Number of subjects: " ++ str num_subjects] in
    let inputs := firstn num_subjects (skipn 1 argv) in
    match check_inputs inputs with
    | inr r => mkRun (out ++ printed r)%list (ended r)
    | inl (num_bvals, num_coeff) =>
        let out := (out ++ [("Number of b-values: " ++ str num_bvals)%string])%list in
        let average_response := repeat (repeat 0%float num_coeff) num_bvals in
        match add_subjects num_subjects inputs average_response with
        | inr e => mkRun out e
        | inl average_response =>
            if writable (nth (List.length argv - 1) argv EmptyString)
            then mkRun out (Finished (map line_out average_response))
            else mkRun out IOError
        end
    end.

(** The input files of a run: [sys.argv[1]] to [sys.argv[num_subjects]]. *)
Definition inputs (argv : list string) : list string :=
  firstn (List.length argv - 2) (skipn 1 argv).

(** Every input file can be read, has [num_bvals] lines, and every line has
    [num_coeff] fields. *)
Definition same_shape (files : list string) (num_bvals num_coeff : nat) : Prop :=
  forall file, In file files ->
    exists lines,
      readlines file = Some lines
      /\ List.length lines = num_bvals
      /\ forall l, In l lines -> List.length (split l) = num_coeff.

End Script.

(** The table has [num_bvals] rows of [num_coeff] entries. *)
Definition table (num_bvals num_coeff : nat) (rows : list (list float)) : Prop :=
  List.length rows = num_bvals
  /\ forall row, In row rows -> List.length row = num_coeff.

(** Two response files of two b-values and three coefficients each, and an
    empty file, to run the script on. *)
Module Sample.

Definition newline : string := String (Ascii.ascii_of_nat 10) EmptyString.

Definition readlines (file : string) : option (list string) :=
  if String.eqb file "a.txt" then Some ["1 2 3" ++ newline; "4 5 6" ++ newline]
  else if String.eqb file "b.txt" then Some ["3 2 1" ++ newline; "6 5 4" ++ newline]
  else if String.eqb file "empty.txt" then Some []
  else None.

Definition writable (file : string) : bool := true.

(** Reads the one-digit fields of the sample files. *)
Definition float_of_string (field : string) : option float :=
  if String.eqb field "1" then Some 1%float
  else if String.eqb field "2" then Some 2%float
  else if String.eqb field "3" then Some 3%float
  else if String.eqb field "4" then Some 4%float
  else if String.eqb field "5" then Some 5%float
  else if String.eqb field "6" then Some 6%float
  else None.

Definition float_of_int (n : nat) : float :=
  PrimFloat.of_uint63 (Uint63.of_Z (Z.of_nat n)).

Definition str (n : nat) : string :=
  match n with 1 => "1" | 2 => "2" | _ => "many" end%nat.

(** Renders the averages of the sample files. *)
Definition format_5f (x : float) : string :=
  if (x =? 2)%float then "2.00000" else if (x =? 5)%float then "5.00000" else "?".

End Sample.

End AverageResponse.

(** ** Comparisons of doubles

    The comparisons of primitive floats are related to their specification
    on [spec_float] by the standard library; the facts below are read off
    [SFcompare]. *)

Definition sf_is_nan (x : spec_float) : bool :=
  match x with S754_nan => true | _ => false end.

(** Every comparison of doubles, as a case of their three-way comparison. *)
Variant compared (a b : float) : Prop :=
| compared_lt :
    (a <? b) = true -> (a <=? b) = true -> (a =? b) = false ->
    (b <? a) = false -> (b <=? a) = false -> (b =? a) = false ->
    is_nan a = false -> is_nan b = false -> compared a b
| compared_eq :
    (a <? b) = false -> (a <=? b) = true -> (a =? b) = true ->
    (b <? a) = false -> (b <=? a) = true -> (b =? a) = true ->
    is_nan a = false -> is_nan b = false -> compared a b
| compared_gt :
    (a <? b) = false -> (a <=? b) = false -> (a =? b) = false ->
    (b <? a) = true -> (b <=? a) = true -> (b =? a) = false ->
    is_nan a = false -> is_nan b = false -> compared a b
| compared_unordered :
    (a <? b) = false -> (a <=? b) = false -> (a =? b) = false ->
    (b <? a) = false -> (b <=? a) = false -> (b =? a) = false ->
    is_nan a = true \/ is_nan b = true -> compared a b.

Module FloatOrder.

Lemma SFcompare_refl (x : spec_float) :
  sf_is_nan x = false -> SFcompare x x = Some Eq.
Proof.
  destruct x as [[]|[]| |[] m e]; cbn; try reflexivity; try discriminate.
  all: intros _; rewrite Z.compare_refl.
  all: change (PosDef.Pos.compare_cont Eq m m) with (Pos.compare m m).
  all: now rewrite Pos.compare_refl.
Qed.

Lemma SFcompare_antisym (x y : spec_float) :
  SFcompare y x = option_map CompOpp (SFcompare x y).
Proof.
  destruct x as [[]|[]| |[] m e], y as [[]|[]| |[] m0 e0]; try reflexivity.
  all: unfold SFcompare.
  all: rewrite (Z.compare_antisym e e0).
  all: destruct (e ?= e0)%Z; cbn [CompOpp option_map]; try reflexivity.
  all: change (PosDef.Pos.compare_cont Eq ?a ?b) with (Pos.compare a b).
  all: rewrite (Pos.compare_antisym m m0).
  all: destruct (m ?= m0)%positive; reflexivity.
Qed.

Lemma SFcompare_None (x y : spec_float) :
  SFcompare x y = None -> sf_is_nan x = true \/ sf_is_nan y = true.
Proof.
  destruct x as [[]|[]| |[] m e], y as [[]|[]| |[] m0 e0]; cbn; auto; discriminate.
Qed.

Lemma SFcompare_Some (x y : spec_float) (c : comparison) :
  SFcompare x y = Some c -> sf_is_nan x = false /\ sf_is_nan y = false.
Proof.
  destruct x as [[]|[]| |[] m e], y as [[]|[]| |[] m0 e0]; cbn; auto; discriminate.
Qed.

Lemma is_nan_spec (x : float) : is_nan x = sf_is_nan (Prim2SF x).
Proof.
  unfold is_nan. rewrite FloatAxioms.eqb_spec. unfold SFeqb.
  destruct (sf_is_nan (Prim2SF x)) eqn:E.
  - destruct (Prim2SF x); try discriminate. reflexivity.
  - now rewrite SFcompare_refl.
Qed.

Lemma compare_cases (a b : float) : compared a b.
Proof.
  pose proof (SFcompare_antisym (Prim2SF a) (Prim2SF b)) as Hba.
  pose proof (is_nan_spec a) as Na. pose proof (is_nan_spec b) as Nb.
  destruct (SFcompare (Prim2SF a) (Prim2SF b)) as [c|] eqn:Hab; cbn in Hba.
  - destruct (SFcompare_Some _ _ _ Hab) as [Ha Hb].
    rewrite Ha in Na. rewrite Hb in Nb.
    destruct c; [apply compared_eq | apply compared_lt | apply compared_gt]; trivial.
    all: rewrite ?FloatAxioms.ltb_spec, ?FloatAxioms.leb_spec, ?FloatAxioms.eqb_spec.
    all: unfold SFltb, SFleb, SFeqb; rewrite ?Hab, ?Hba; reflexivity.
  - apply compared_unordered.
    7: { apply SFcompare_None in Hab. rewrite Na, Nb. exact Hab. }
    all: rewrite ?FloatAxioms.ltb_spec, ?FloatAxioms.leb_spec, ?FloatAxioms.eqb_spec.
    all: unfold SFltb, SFleb, SFeqb; rewrite ?Hab, ?Hba; reflexivity.
Qed.

Lemma ltb_leb (a b : float) : (a <? b) = true -> (a <=? b) = true.
Proof. destruct (compare_cases a b); congruence. Qed.

Lemma nlt_leb (a b : float) :
  is_nan a = false -> is_nan b = false -> (a <? b) = false -> (b <=? a) = true.
Proof. destruct (compare_cases a b) as [| | |? ? ? ? ? ? []]; congruence. Qed.

Lemma nlt_neq_ltb (a b : float) :
  is_nan a = false -> is_nan b = false ->
  (a <? b) = false -> (a =? b) = false -> (b <? a) = true.
Proof. destruct (compare_cases a b) as [| | |? ? ? ? ? ? []]; congruence. Qed.

Lemma eqb_sym (a b : float) : (a =? b) = (b =? a).
Proof. destruct (compare_cases a b); congruence. Qed.

Lemma ltb_ordered (a b : float) :
  (a <? b) = true -> is_nan a = false /\ is_nan b = false.
Proof. destruct (compare_cases a b); split; congruence. Qed.

Lemma leb_ordered (a b : float) :
  (a <=? b) = true -> is_nan a = false /\ is_nan b = false.
Proof. destruct (compare_cases a b); split; congruence. Qed.

Lemma nan_unordered (a b : float) :
  is_nan a = true ->
  (a <? b) = false /\ (a <=? b) = false /\ (a =? b) = false
  /\ (b <? a) = false /\ (b <=? a) = false.
Proof. destruct (compare_cases a b); repeat split; congruence. Qed.

Lemma abs_not_below_zero (x : float) : (abs x <? 0) = false.
Proof.
  rewrite FloatAxioms.ltb_spec, FloatAxioms.abs_spec.
  change (Prim2SF 0) with (S754_zero false).
  destruct (Prim2SF x) as [[]|[]| |[] m e]; reflexivity.
Qed.

End FloatOrder.

(** ** What an invocation does to the optimiser and to the loop state *)

(** Opens the body of a pass: one case per path through it. *)
Ltac body_paths :=
  cbv beta zeta;
  repeat match goal with
  | |- context [let '(_, _) := call ?f ?x in _] => destruct (call f x)
  | |- context [if ?c then _ else _] => destruct c
  end.

Section Structure.

Context {F : Type} `{Functor F}.

Lemma only_status_differs_refl (q : QuadraticLineSearch) : only_status_differs q q.
Proof. destruct q; reflexivity. Qed.

Lemma only_status_differs_assign (s : return_t) (q : QuadraticLineSearch) :
  only_status_differs q (assign_status s q).
Proof. reflexivity. Qed.

Lemma only_status_differs_configuration (q q' : QuadraticLineSearch) :
  only_status_differs q q' -> configuration q' = configuration q.
Proof. intros ->. reflexivity. Qed.

Lemma initialise_this (w : world F) : this (snd (initialise w)) = this w.
Proof.
  unfold initialise.
  destruct (call (functor w) _) as [fl g1], (call g1 _) as [fm g2], (call g2 _) as [fu g3].
  reflexivity.
Qed.

(** A pass that reaches the end of the body has not written the status. *)
Lemma iteration_Continue_this (b b' : bracket) (w w' : world F) :
  iteration b w = Continue b' w' -> this w' = this w.
Proof.
  destruct b as [l m u fl fm fu]. unfold iteration. body_paths.
  all: intros E; inversion E; reflexivity.
Qed.

(** A pass that returns has written at most the status. *)
Lemma iteration_Return_this (b : bracket) (w w' : world F) (v : float) :
  iteration b w = Return v w' -> only_status_differs (this w) (this w').
Proof.
  destruct b as [l m u fl fm fu]. unfold iteration. body_paths.
  all: intros E; inversion E; cbn;
    solve [apply only_status_differs_refl | apply only_status_differs_assign].
Qed.

Lemma while_loop_this (n : nat) : forall (b : bracket) (w : world F),
  only_status_differs (this w) (this (snd (while_loop n b w))).
Proof.
  induction n as [|n IH]; intros b w; cbn [while_loop].
  - apply only_status_differs_assign.
  - destruct (iteration b w) as [v w'|b' w'] eqn:E.
    + exact (iteration_Return_this _ _ _ _ E).
    + rewrite <- (iteration_Continue_this _ _ _ _ E). apply IH.
Qed.

Lemma iterate_this (k : nat) : forall (b bk : bracket) (w wk : world F),
  iterate k b w = Some (bk, wk) -> this wk = this w.
Proof.
  induction k as [|k IH]; intros b bk w wk; cbn [iterate].
  - intros E; inversion E; reflexivity.
  - destruct (iteration b w) as [v w'|b' w'] eqn:E; [discriminate|].
    intros Hk. rewrite (IH _ _ _ _ Hk). exact (iteration_Continue_this _ _ _ _ E).
Qed.

(** The loop runs [k] complete passes and then either returns from the next
    one or has used up its budget. *)
Lemma while_loop_unrolled (n : nat) : forall (b : bracket) (w : world F),
  exists (k : nat) (bk : bracket) (wk : world F),
    iterate k b w = Some (bk, wk) /\
    (((k < n)%nat /\
      exists v w', iteration bk wk = Return v w' /\ while_loop n b w = (v, w'))
     \/ (k = n /\ while_loop n b w = (NAN, write_status NONCONVERGING wk))).
Proof.
  induction n as [|n IH]; intros b w.
  - exists O, b, w. split; [reflexivity|]. right. split; reflexivity.
  - cbn [while_loop]. destruct (iteration b w) as [v w'|b' w'] eqn:E.
    + exists O, b, w. split; [reflexivity|]. left. split; [lia|].
      exists v, w'. split; [exact E | reflexivity].
    + destruct (IH b' w') as (k & bk & wk & Hk & Hend).
      exists (S k), bk, wk. split; [cbn [iterate]; rewrite E; exact Hk|].
      destruct Hend as [(Hlt & v & w'' & Hv & Hr) | (-> & Hr)].
      * left. split; [lia|]. exists v, w''. split; assumption.
      * right. split; [reflexivity | assumption].
Qed.

Lemma while_loop_returns (k : nat) : forall (n : nat) (b bk : bracket) (w wk w' : world F) (v : float),
  iterate k b w = Some (bk, wk) -> (k < n)%nat ->
  iteration bk wk = Return v w' -> while_loop n b w = (v, w').
Proof.
  induction k as [|k IH]; intros n b bk w wk w' v; cbn [iterate].
  - intros E Hn Hv. inversion E; subst. destruct n; [lia|]. cbn [while_loop].
    now rewrite Hv.
  - destruct (iteration b w) as [v0 w0|b0 w0] eqn:E; [discriminate|].
    intros Hk Hn Hv. destruct n; [lia|]. cbn [while_loop]. rewrite E.
    apply (IH n b0 bk w0 wk w' v); [assumption | lia | assumption].
Qed.

Lemma while_loop_exhausted (n : nat) : forall (b bn : bracket) (w wn : world F),
  iterate n b w = Some (bn, wn) ->
  while_loop n b w = (NAN, write_status NONCONVERGING wn).
Proof.
  induction n as [|n IH]; intros b bn w wn; cbn [iterate while_loop].
  - intros E; inversion E; reflexivity.
  - destruct (iteration b w) as [v0 w0|b0 w0]; [discriminate|]. apply IH.
Qed.

(** The path through the body that returns on a non-finite cost. *)
Lemma iteration_nonfinite (b : bracket) (w : world F) (fn : float) (g : F) :
  above_chord b = false ->
  call (functor w) (candidate b) = (fn, g) ->
  isfinite fn = false ->
  iteration b w = Return (b_m b) (with_functor g w).
Proof.
  destruct b as [l m u fl fm fu]. unfold above_chord, candidate, iteration.
  cbv beta zeta. intros -> -> ->. reflexivity.
Qed.

Lemma operator_call_entry (q : QuadraticLineSearch) (f : F) :
  operator_call q f = while_loop (max_iters q) (fst (entry q f)) (snd (entry q f)).
Proof.
  unfold operator_call, entry. destruct (initialise _) as [b w]. reflexivity.
Qed.

Lemma entry_this (q : QuadraticLineSearch) (f : F) :
  this (snd (entry q f)) = assign_status EXECUTING q.
Proof. unfold entry. now rewrite initialise_this. Qed.

(** The status the optimiser holds on entry is overwritten before it is read. *)
Lemma operator_call_entry_status (s : return_t) (q : QuadraticLineSearch) (f : F) :
  operator_call (assign_status s q) f = operator_call q f.
Proof. reflexivity. Qed.

Lemma operator_call_only_status (q : QuadraticLineSearch) (f : F) :
  only_status_differs q (this (snd (operator_call q f))).
Proof.
  rewrite operator_call_entry.
  pose proof (while_loop_this (max_iters q) (fst (entry q f)) (snd (entry q f))) as E.
  rewrite entry_this in E. exact E.
Qed.

End Structure.

(** ** Return paths and the status they leave *)

(** C2: the status read after an invocation is meant never to be EXECUTING.
    With the constructor's defaults on bounds 0 and 4 (initial estimate 2) and
    the cost [(x-2)^2] the first candidate equals the initial estimate, the
    call returns it through the [n == m] path and the status read afterwards
    is EXECUTING. *)
Theorem status_left_executing_on_exact_match :
  returned (operator_call (construct 0 4) parabola) = 2
  /\ get_status (this (snd (operator_call (construct 0 4) parabola))) = EXECUTING.
Proof. split; vm_compute; reflexivity. Qed.

(** C3: cost [(x-2)^2], lower bound 0, initial estimate 1, upper bound 4,
    default tolerances and iteration limit.  The invocation evaluates the
    cost at 0, 1, 4, 2 and 2, and returns 2, which is within the value
    tolerance of the minimum; the second candidate equals the midpoint, so the
    call leaves through the [n == m] path and the status is EXECUTING, not
    SUCCESS. *)
Theorem parabola_scenario :
  let r := operator_call bracket_0_1_4 (mkRecording parabola []) in
  returned r = 2
  /\ (std_abs (returned r - 2.0) <? value_tolerance bracket_0_1_4) = true
  /\ evaluated (functor (snd r)) = [0; 1; 4; 2; 2]
  /\ status_after r = EXECUTING.
Proof. repeat split; vm_compute; reflexivity. Qed.

(** C7: cost [-(x-2)^2], lower bound 0, initial estimate 1, upper bound 4 and
    default tolerances: the invocation returns the NaN sentinel and leaves
    status NONCONVEX. *)
Theorem concave_scenario :
  let r := operator_call bracket_0_1_4 concave_parabola in
  returned r = NAN /\ is_nan (returned r) = true /\ status_after r = NONCONVEX.
Proof. repeat split; vm_compute; reflexivity. Qed.

(** C10: with max iterations set to 0 an invocation evaluates the cost
    function exactly three times, at the configured lower, mid and upper
    points in this order, does not enter the loop (it is the initialisation
    followed by the statements after the loop), returns the NaN sentinel and
    sets the status to NONCONVERGING. *)
Theorem zero_iterations (q : QuadraticLineSearch) (c : float -> float) :
  let q0 := set_max_iterations 0 q in
  let r := operator_call q0 (mkRecording c []) in
  evaluated (functor (snd r)) = [init_lower q; init_mid q; init_upper q]
  /\ r = (NAN, write_status NONCONVERGING (snd (entry q0 (mkRecording c []))))
  /\ returned r = NAN
  /\ status_after r = NONCONVERGING.
Proof. repeat split. Qed.

(** C6: when the cost of the candidate of some pass through the loop is not
    finite, the call returns the midpoint [m] the bracket has in that pass,
    and the status is the EXECUTING written on entry. *)
Theorem nonfinite_cost_returns_midpoint {F : Type} `{Functor F}
    (q : QuadraticLineSearch) (f : F) (k : nat) (bk : bracket) (wk : world F)
    (fn : float) (g : F)
    (Hreach : iterate k (fst (entry q f)) (snd (entry q f)) = Some (bk, wk))
    (Hbudget : (k < max_iters q)%nat)
    (Hchord : above_chord bk = false)
    (Hcost : call (functor wk) (candidate bk) = (fn, g))
    (Hnonfinite : isfinite fn = false) :
  returned (operator_call q f) = b_m bk
  /\ status_after (operator_call q f) = EXECUTING.
Proof.
  pose proof (iteration_nonfinite bk wk fn g Hchord Hcost Hnonfinite) as Hret.
  rewrite operator_call_entry.
  rewrite (while_loop_returns k _ _ _ _ _ _ _ Hreach Hbudget Hret).
  split; [reflexivity|].
  unfold status_after, get_status. cbn [snd with_functor this].
  rewrite (iterate_this k _ _ _ _ Hreach), entry_this. reflexivity.
Qed.

Lemma nonfinite_cost_returns_midpoint_witness :
  returned (operator_call (construct 0 2) square) = 0
  /\ status_after (operator_call (construct 0 2) square) = EXECUTING.
Proof.
  apply (nonfinite_cost_returns_midpoint (construct 0 2) square 1
           (mkBracket 0 0 1 0 0 1)
           (mkWorld (assign_status EXECUTING (construct 0 2)) square None [])
           nan square).
  - vm_compute. reflexivity.
  - vm_compute. lia.
  - vm_compute. reflexivity.
  - vm_compute. reflexivity.
  - vm_compute. reflexivity.
Defined.

(** C9: two consecutive invocations on the same optimiser with the same
    deterministic cost function return the same value and leave the same
    status, and an invocation leaves every member other than the status as it
    was. *)
Theorem invocation_repeatable (q : QuadraticLineSearch) (f : float -> float) :
  let first := operator_call q f in
  let second := operator_call (this (snd first)) f in
  returned second = returned first
  /\ status_after second = status_after first
  /\ configuration (this (snd first)) = configuration q
  /\ configuration (this (snd second)) = configuration q
  /\ this (snd first) = assign_status (status_after first) q.
Proof.
  intros first second.
  pose proof (operator_call_only_status q f) as E. fold first in E.
  assert (second = first) as ->.
  { unfold second. rewrite E. apply operator_call_entry_status. }
  repeat split; try apply only_status_differs_configuration; exact E.
Qed.

(** ** The two entry points *)

(** C1: [verbose] is meant to return what [operator()] returns and to leave
    the same status.  It lacks the test for a non-finite cost and the
    function-tolerance test of [operator()], and the results differ: with the
    constructor's defaults on bounds 0 and 2 and the cost [x^2], and with
    function tolerance 0.1 on the bracket (0, 1, 4) and the cost
    [-(x-2)^2]. *)
Theorem verbose_differs_from_operator_call :
  (returned (operator_call (construct 0 2) square) = 0
   /\ status_after (operator_call (construct 0 2) square) = EXECUTING
   /\ is_nan (returned (verbose (construct 0 2) square)) = true
   /\ status_after (verbose (construct 0 2) square) = OUTSIDE_BOUNDS)
  /\
  (let q := set_function_tolerance 0.1 bracket_0_1_4 in
   returned (operator_call q concave_parabola) = 1
   /\ status_after (operator_call q concave_parabola) = SUCCESS
   /\ is_nan (returned (verbose q concave_parabola)) = true
   /\ status_after (verbose q concave_parabola) = NONCONVEX).
Proof. repeat split; vm_compute; reflexivity. Qed.

(** ** The iteration budget *)

Lemma initialise_evaluated (w : world recording) :
  evaluated (functor (snd (initialise w)))
  = evaluated (functor w)
      ++ [init_lower (this w); init_mid (this w); init_upper (this w)].
Proof.
  unfold initialise, call, recording_functor. cbn.
  now rewrite <- !app_assoc.
Qed.

Lemma entry_evaluated (q : QuadraticLineSearch) (f : recording) :
  evaluated (functor (snd (entry q f)))
  = evaluated f ++ [init_lower q; init_mid q; init_upper q].
Proof. unfold entry. now rewrite initialise_evaluated. Qed.








(** ** Order of the bracket *)

(** As [body_paths], keeping the outcome of each test. *)
Ltac body_paths_eqn :=
  cbv beta zeta;
  repeat match goal with
  | |- context [let '(_, _) := call ?f ?x in _] => destruct (call f x) eqn:?
  | |- context [if ?c then _ else _] => destruct c eqn:?
  end.

Section Order.

Context {F : Type} `{Functor F}.

Import FloatOrder.

(** A pass with an ordered candidate keeps [l <= m <= u]. *)
Lemma iteration_bracketed (b b' : bracket) (w w' : world F) :
  iteration b w = Continue b' w' ->
  ordered_candidate b = true -> bracketed b = true -> bracketed b' = true.
Proof.
  destruct b as [l m u fl fm fu].
  unfold ordered_candidate, bracketed, candidate, iteration.
  cbv beta zeta iota. cbn [b_l b_m b_u].
  set (n := 0.5 * (l + m) - _).
  intros E Hn Hb.
  apply negb_true_iff in Hn. apply andb_prop in Hb as [Hlm Hmu].
  destruct (leb_ordered _ _ Hlm) as [Hl Hm], (leb_ordered _ _ Hmu) as [_ Hu].
  revert E. body_paths_eqn.
  all: intros E; inversion E; subst; clear E; cbn [b_l b_m b_u].
  all: apply andb_true_intro; split; auto using ltb_leb, nlt_leb.
Qed.

(** A pass with an ordered candidate other than [l] and [u] keeps
    [l < m < u]. *)
Lemma iteration_strictly_bracketed (b b' : bracket) (w w' : world F) :
  iteration b w = Continue b' w' ->
  apart_candidate b = true -> strictly_bracketed b = true ->
  strictly_bracketed b' = true.
Proof.
  destruct b as [l m u fl fm fu].
  unfold apart_candidate, strictly_bracketed, candidate, iteration.
  cbv beta zeta iota. cbn [b_l b_m b_u].
  set (n := 0.5 * (l + m) - _).
  intros E Hn Hb.
  apply andb_prop in Hn as [Hn Hnu]. apply andb_prop in Hn as [Hn Hnl].
  apply negb_true_iff in Hn, Hnl, Hnu. apply andb_prop in Hb as [Hlm Hmu].
  destruct (ltb_ordered _ _ Hlm) as [Hl Hm], (ltb_ordered _ _ Hmu) as [_ Hu].
  revert E. body_paths_eqn.
  all: intros E; inversion E; subst; clear E; cbn [b_l b_m b_u].
  all: apply andb_true_intro; split; auto using nlt_neq_ltb.
Qed.

End Order.

(** Counterexample to C4 as stated: it fails when a candidate coincides with [l] (or with [u]):
    with the constructor's defaults on bounds 0 and 2 and the cost [x^2] the
    invocation starts with [l < m < u] (0, 1, 2); the first candidate is 0,
    its cost is not above that of the midpoint, and the second pass starts
    with the bracket (0, 0, 1), where [l < m] is false. *)
Lemma strict_order_lost :
  let q := construct 0 2 in
  strictly_bracketed (fst (entry q square)) = true
  /\ (1 < max_iters q)%nat
  /\ exists (b1 : bracket) (w1 : world (float -> float)),
       iterate 1 (fst (entry q square)) (snd (entry q square)) = Some (b1, w1)
       /\ (b_l b1, b_m b1, b_u b1) = (0, 0, 1)
       /\ strictly_bracketed b1 = false.
Proof.
  split; [vm_compute; reflexivity|]. split; [vm_compute; lia|].
  eexists. eexists. split; [vm_compute; reflexivity|].
  split; vm_compute; reflexivity.
Qed.

(** C4 (amended): if the loop is entered with [l <= m <= u] and the candidate
    of every pass so far is an ordered number (not NaN), then [l <= m <= u]
    holds at the start of the next pass; if moreover it is entered with
    [l < m < u] and every candidate so far differs from the [l] and the [u]
    of its pass, then [l < m < u] holds at the start of the next pass. *)
Theorem bracket_order_preserved {F : Type} `{Functor F}
    (k : nat) (b bk : bracket) (w wk : world F)
    (Hrun : iterate k b w = Some (bk, wk)) :
  (bracketed b = true -> every_pass ordered_candidate k b w = true ->
   bracketed bk = true)
  /\ (strictly_bracketed b = true -> every_pass apart_candidate k b w = true ->
      strictly_bracketed bk = true).
Proof.
  revert b w Hrun. induction k as [|k IH]; intros b w; cbn [iterate every_pass].
  - intros E; inversion E; subst. split; intros Hb _; exact Hb.
  - destruct (iteration b w) as [v w'|b' w'] eqn:E; [discriminate|].
    intros Hk. destruct (IH b' w' Hk) as [IHweak IHstrict].
    split; intros Hb Hpass; apply andb_prop in Hpass as [Hn Hrest].
    + apply IHweak; [|exact Hrest]. exact (iteration_bracketed _ _ _ _ E Hn Hb).
    + apply IHstrict; [|exact Hrest].
      exact (iteration_strictly_bracketed _ _ _ _ E Hn Hb).
Qed.

Lemma bracket_order_preserved_witness :
  bracketed (mkBracket 1 2 4 1 0 4) = true
  /\ strictly_bracketed (mkBracket 1 2 4 1 0 4) = true.
Proof.
  destruct (@bracket_order_preserved (float -> float) pure_functor 1
              (fst (entry bracket_0_1_4 parabola)) (mkBracket 1 2 4 1 0 4)
              (snd (entry bracket_0_1_4 parabola))
              (mkWorld (assign_status EXECUTING bracket_0_1_4) parabola None []))
    as [Hweak Hstrict].
  - vm_compute. reflexivity.
  - split; [apply Hweak | apply Hstrict]; vm_compute; reflexivity.
Defined.

(** ** The bracket update *)

(** Settles every comparison between two doubles. *)
Ltac settle a b :=
  destruct (FloatOrder.compare_cases a b)
    as [?O ?O ?O ?O ?O ?O ?O ?O | ?O ?O ?O ?O ?O ?O ?O ?O
       | ?O ?O ?O ?O ?O ?O ?O ?O | ?O ?O ?O ?O ?O ?O [?O | ?O]];
  try match goal with
      | A : is_nan ?x = true, B : is_nan ?x = false |- _ =>
          exfalso; rewrite A in B; discriminate B
      end.

Ltac use_comparisons :=
  repeat match goal with
  | E : (?x <? ?y) = _ |- context [?x <? ?y] => rewrite E
  | E : (?x <=? ?y) = _ |- context [?x <=? ?y] => rewrite E
  | E : (?x =? ?y) = _ |- context [?x =? ?y] => rewrite E
  end.

(** Counterexample to C5 as stated: it fails for a candidate that is NaN: none of the five
    position conditions holds of it, and the code treats it as the upward
    case.  With the constant cost 1 on bounds 0 and 4 the secant slopes are
    both 0 and the first candidate is NaN; the call fails OUTSIDE_BOUNDS, and
    with the flag cleared the bracket becomes (2, 4, NaN). *)
Lemma nan_candidate_in_no_case :
  let q := construct 0 4 in
  let b := fst (entry q flat) in
  let w := snd (entry q flat) in
  let n := candidate b in
  ~ (exists after, five_cases b n (flat n) w = Some after
                   /\ iteration b w = conclude after)
  /\ above_chord b = false
  /\ is_nan n = true
  /\ isfinite (flat n) = true
  /\ five_cases b n (flat n) w = None
  /\ iteration b w = Return NAN (write_status OUTSIDE_BOUNDS w)
  /\ (let q' := set_exit_if_outside_bounds false q in
      exists w', iteration (fst (entry q' flat)) (snd (entry q' flat))
                 = Continue (mkBracket 2 4 nan 1 1 1) w').
Proof.
  split.
  - intros (after & Hcase & _). vm_compute in Hcase. discriminate.
  - repeat split; try (vm_compute; reflexivity).
    eexists. vm_compute. reflexivity.
Qed.

(** C5 (amended): in every pass that gets past the chord test, the cost is
    evaluated at [n = 0.5*(l+m) - (sl*(u-l)) / (2*(su-sl))] with
    [sl = (fm-fl)/(m-l)] and [su = (fu-fm)/(u-m)]; when that cost is finite
    and [l], [m], [u] and [n] are ordered numbers (none is NaN), exactly one
    of the five position cases applies and the pass is that case followed by
    the end of the loop body. *)
Theorem bracket_update_five_cases {F : Type} `{Functor F}
    (l m u fl fm fu n fn : float) (w : world F) (g : F)
    (Hn : n = 0.5 * (l + m)
              - ((fm - fl) / (m - l) * (u - l))
                / (2 * ((fu - fm) / (u - m) - (fm - fl) / (m - l))))
    (Hchord : above_chord (mkBracket l m u fl fm fu) = false)
    (Hcost : call (functor w) n = (fn, g))
    (Hfinite : isfinite fn = true)
    (Hl : is_nan l = false) (Hm : is_nan m = false) (Hu : is_nan u = false)
    (Hordered : is_nan n = false) :
  exists after : flow F,
    five_cases (mkBracket l m u fl fm fu) n fn (with_functor g w) = Some after
    /\ iteration (mkBracket l m u fl fm fu) w = conclude after.
Proof.
  unfold above_chord in Hchord. cbv beta iota in Hchord.
  unfold iteration, five_cases. cbv beta zeta iota.
  rewrite Hchord, <- Hn, Hcost. cbv beta iota. rewrite Hfinite. cbn [negb].
  settle n l; settle n m; settle n u; use_comparisons; cbn [andb].
  all: eexists; (split; [reflexivity|]); unfold conclude.
  all: repeat match goal with
       | |- context [if ?c then _ else _] => destruct c
       end; reflexivity.
Qed.

Lemma bracket_update_five_cases_witness :
  exists after : flow (float -> float),
    five_cases (mkBracket 0 1 4 4 1 4) 2 0
      (with_functor parabola (snd (entry bracket_0_1_4 parabola))) = Some after
    /\ iteration (mkBracket 0 1 4 4 1 4) (snd (entry bracket_0_1_4 parabola))
       = conclude after.
Proof.
  apply (@bracket_update_five_cases (float -> float) pure_functor
           0 1 4 4 1 4 2 0 (snd (entry bracket_0_1_4 parabola)) parabola).
  all: vm_compute; reflexivity.
Defined.

(** ** Where the two entry points agree *)

Section Agreement.

Variable f : float -> float.

(** The cost is finite wherever it is evaluated. *)
Hypothesis f_finite : forall x : float, isfinite (f x) = true.

Lemma verbose_iteration_agrees (b : bracket) (w1 w2 : world (float -> float)) :
  function_tolerance (this w1) = 0 -> agree f w1 w2 ->
  flows_agree f (iteration b w1) (verbose_iteration b w2).
Proof.
  intros Htol (Hthis & Hf1 & Hf2). destruct b as [l m u fl fm fu].
  unfold iteration, verbose_iteration, call, pure_functor.
  cbv beta zeta iota. rewrite Hf1, Hf2, f_finite, Htol.
  unfold std_abs. rewrite FloatOrder.abs_not_below_zero, orb_false_r.
  repeat (cbn [negb with_functor write_status advance_progress print this functor
               b_l b_m b_u];
          rewrite <- ?Hthis;
          match goal with
          | |- context [if ?c then _ else _] => destruct c
          end).
  all: unfold flows_agree, agree; cbn; rewrite ?Hf1, ?Hf2, ?Hthis.
  all: repeat split; reflexivity.
Qed.

Lemma verbose_loop_agrees (n : nat) : forall (b : bracket) (w1 w2 : world (float -> float)),
  function_tolerance (this w1) = 0 -> agree f w1 w2 ->
  fst (while_loop n b w1) = fst (verbose_loop n b w2)
  /\ this (snd (while_loop n b w1)) = this (snd (verbose_loop n b w2)).
Proof.
  induction n as [|n IH]; intros b w1 w2 Htol Hagree; cbn [while_loop verbose_loop].
  - destruct Hagree as (Hthis & _). cbn. now rewrite Hthis.
  - pose proof (verbose_iteration_agrees b w1 w2 Htol Hagree) as Hstep.
    destruct (iteration b w1) as [v1 w1'|b1 w1'] eqn:E1,
             (verbose_iteration b w2) as [v2 w2'|b2 w2']; cbn in Hstep; try contradiction.
    + destruct Hstep as (-> & Hthis & _). split; [reflexivity | exact Hthis].
    + destruct Hstep as (-> & Hagree'). apply IH; [|exact Hagree'].
      now rewrite (iteration_Continue_this _ _ _ _ E1).
Qed.

(** With function tolerance 0 and a cost that is finite everywhere,
    [verbose] returns what [operator()] returns and leaves the same
    status. *)
Lemma verbose_agrees (q : QuadraticLineSearch) :
  function_tolerance q = 0 ->
  returned (verbose q f) = returned (operator_call q f)
  /\ status_after (verbose q f) = status_after (operator_call q f).
Proof.
  intros Htol.
  pose (b := mkBracket (init_lower q) (init_mid q) (init_upper q)
               (f (init_lower q)) (f (init_mid q)) (f (init_upper q))).
  pose (e := assign_status EXECUTING q).
  pose (w1 := mkWorld e f
                (if (String.length (message q) =? 0)%nat then None else Some O) []).
  pose (w2 := mkWorld e f None
                [Text "Initialising quadratic line search";
                 Text "        Lower        Mid         Upper";
                 Pos (b_l b) (b_m b) (b_u b); Value (b_fl b) (b_fm b) (b_fu b)]).
  change (operator_call q f) with (while_loop (max_iters q) b w1).
  change (verbose q f) with (verbose_loop (max_iters q) b w2).
  destruct (verbose_loop_agrees (max_iters q) b w1 w2) as [Hv Hs].
  - exact Htol.
  - repeat split.
  - unfold returned, status_after, get_status. rewrite Hv, Hs. split; reflexivity.
Qed.

End Agreement.

(** ** What the status says about the returned value *)

Section Outcome.

Context {F : Type} `{Functor F}.

(** The return paths of a pass, by what they do to the status. *)
Lemma iteration_Return_outcome (b : bracket) (w w' : world F) (v : float) :
  iteration b w = Return v w' ->
  (this w' = this w /\ above_chord b = false
   /\ exists (fn : float) (g : F),
        call (functor w) (candidate b) = (fn, g) /\ w' = with_functor g w
        /\ ((isfinite fn = false /\ v = b_m b)
            \/ (isfinite fn = true /\ (candidate b =? b_m b) = true
                /\ v = candidate b)))
  \/ this w' = assign_status SUCCESS (this w)
  \/ (v = NAN /\ this w' = assign_status NONCONVEX (this w))
  \/ (v = NAN /\ this w' = assign_status OUTSIDE_BOUNDS (this w)
      /\ exit_outside_bounds (this w) = true).
Proof.
  destruct b as [l m u fl fm fu]. unfold iteration, above_chord, candidate.
  cbv beta zeta iota. cbn [b_m].
  set (n := 0.5 * (l + m) - _).
  destruct (fl + (fu - fl) * (m - l) / (u - l) <? fm) eqn:Hchord.
  - destruct (_ || _); intros E; inversion E; subst; auto.
  - destruct (call (functor w) n) as [fn g] eqn:Hcall.
    destruct (isfinite fn) eqn:Hfinite; cbn [negb].
    + cbn [this with_functor].
      destruct (n <? l); [destruct (exit_outside_bounds (this w)) eqn:Hexit|].
      all: repeat match goal with
           | |- context [if ?c then _ else _] => destruct c eqn:?
           end.
      all: intros E; inversion E; subst; clear E; auto 6.
      left. split; [reflexivity|]. split; [reflexivity|].
      exists fn, g. auto 6.
    + intros E; inversion E; subst; clear E.
      left. split; [reflexivity|]. split; [reflexivity|].
      exists fn, g. auto 6.
Qed.

(** The status after an invocation is the one written by the pass that
    returned, or NONCONVERGING. *)
Lemma operator_call_outcome (q : QuadraticLineSearch) (f : F) :
  (exists (k : nat) (bk : bracket) (wk : world F) (v : float) (w' : world F),
     (k < max_iters q)%nat
     /\ iterate k (fst (entry q f)) (snd (entry q f)) = Some (bk, wk)
     /\ this wk = assign_status EXECUTING q
     /\ iteration bk wk = Return v w'
     /\ operator_call q f = (v, w'))
  \/ (returned (operator_call q f) = NAN
      /\ status_after (operator_call q f) = NONCONVERGING).
Proof.
  rewrite operator_call_entry.
  destruct (while_loop_unrolled (max_iters q) (fst (entry q f)) (snd (entry q f)))
    as (k & bk & wk & Hk & [(Hlt & v & w' & Hv & Hr) | (-> & Hr)]).
  - left. exists k, bk, wk, v, w'. repeat split; try assumption.
    rewrite (iterate_this _ _ _ _ _ Hk). apply entry_this.
  - right. rewrite Hr. split; reflexivity.
Qed.

End Outcome.

(** X1: when the status after [operator()] is one of the three failure
    statuses, the returned value is the NaN sentinel. *)
Theorem failure_status_returns_sentinel {F : Type} {call_F : Functor F}
    (q : QuadraticLineSearch) (f : F)
    (Hfailed : failure (status_after (operator_call q f)) = true) :
  returned (operator_call q f) = NAN.
Proof.
  destruct (operator_call_outcome q f)
    as [(k & bk & wk & v & w' & _ & _ & Hthis & Hret & Hr) | [Hnan _]];
    [|exact Hnan].
  rewrite Hr in *. unfold status_after, get_status in Hfailed. cbn [snd] in Hfailed.
  destruct (iteration_Return_outcome _ _ _ _ Hret)
    as [(E & _) | [E | [(-> & _) | (-> & _)]]]; try reflexivity.
  all: rewrite E, ?Hthis in Hfailed; discriminate Hfailed.
Qed.

Lemma failure_status_returns_sentinel_witness :
  returned (operator_call bracket_0_1_4 concave_parabola) = NAN.
Proof.
  apply (@failure_status_returns_sentinel (float -> float) pure_functor).
  vm_compute. reflexivity.
Defined.

(** X2: once [set_exit_if_outside_bounds (false)] has been called, no
    invocation of [operator()] ends with status OUTSIDE_BOUNDS. *)
Theorem never_outside_bounds_when_widening {F : Type} {call_F : Functor F}
    (q : QuadraticLineSearch) (f : F) :
  status_after (operator_call (set_exit_if_outside_bounds false q) f)
  <> OUTSIDE_BOUNDS.
Proof.
  set (q' := set_exit_if_outside_bounds false q).
  destruct (operator_call_outcome q' f)
    as [(k & bk & wk & v & w' & _ & _ & Hthis & Hret & Hr) | [_ Hs]];
    [|rewrite Hs; discriminate].
  rewrite Hr. unfold status_after, get_status. cbn [snd].
  destruct (iteration_Return_outcome _ _ _ _ Hret)
    as [(E & _) | [E | [(_ & E) | (_ & _ & Hexit)]]].
  1-3: rewrite E, ?Hthis; discriminate.
  rewrite Hthis in Hexit. discriminate Hexit.
Qed.

(** X3: the status after [operator()] is EXECUTING only when the call
    returned from a pass that got past the chord test and then either found
    a non-finite cost at the candidate, returning the midpoint, or found the
    candidate equal to the midpoint, returning the candidate. *)
Theorem executing_status_paths {F : Type} {call_F : Functor F}
    (q : QuadraticLineSearch) (f : F)
    (Hstale : status_after (operator_call q f) = EXECUTING) :
  exists (k : nat) (bk : bracket) (wk : world F) (fn : float) (g : F),
    (k < max_iters q)%nat
    /\ iterate k (fst (entry q f)) (snd (entry q f)) = Some (bk, wk)
    /\ above_chord bk = false
    /\ call (functor wk) (candidate bk) = (fn, g)
    /\ ((isfinite fn = false /\ returned (operator_call q f) = b_m bk)
        \/ (isfinite fn = true /\ (candidate bk =? b_m bk) = true
            /\ returned (operator_call q f) = candidate bk)).
Proof.
  destruct (operator_call_outcome q f)
    as [(k & bk & wk & v & w' & Hlt & Hk & Hthis & Hret & Hr) | [_ Hs]];
    [|rewrite Hs in Hstale; discriminate Hstale].
  rewrite Hr in *. unfold status_after, get_status in Hstale. cbn [snd] in Hstale.
  destruct (iteration_Return_outcome _ _ _ _ Hret)
    as [(_ & Hchord & fn & g & Hcall & _ & Hpath) | [E | [(_ & E) | (_ & E & _)]]].
  - exists k, bk, wk, fn, g. repeat split; assumption.
  - rewrite E in Hstale. discriminate Hstale.
  - rewrite E in Hstale. discriminate Hstale.
  - rewrite E in Hstale. discriminate Hstale.
Qed.

Lemma executing_status_paths_witness :
  exists (k : nat) (bk : bracket) (wk : world (float -> float)) (fn : float)
         (g : float -> float),
    (k < max_iters (construct 0 4))%nat
    /\ iterate k (fst (entry (construct 0 4) parabola))
         (snd (entry (construct 0 4) parabola)) = Some (bk, wk)
    /\ above_chord bk = false
    /\ call (functor wk) (candidate bk) = (fn, g)
    /\ ((isfinite fn = false
         /\ returned (operator_call (construct 0 4) parabola) = b_m bk)
        \/ (isfinite fn = true /\ (candidate bk =? b_m bk) = true
            /\ returned (operator_call (construct 0 4) parabola) = candidate bk)).
Proof.
  apply (@executing_status_paths (float -> float) pure_functor).
  vm_compute. reflexivity.
Defined.

(** ** The points a deterministic cost is evaluated at *)

Section Samples.

Variable c : float -> float.

Lemma entry_sampled (q : QuadraticLineSearch) (log : list float) :
  sampled c (fst (entry q (mkRecording c log))) (snd (entry q (mkRecording c log))).
Proof.
  unfold sampled, entry, initialise, call, recording_functor. cbn.
  repeat split; rewrite ?in_app_iff; cbn; auto 6.
Qed.

(** Splits the hypothesis that the bracket is sampled and names the
    candidate of the pass. *)
Ltac open_pass Hs :=
  destruct Hs as (Hc & Hfl & Hfm & Hfu & Il & Im & Iu);
  cbn [b_l b_m b_u b_fl b_fm b_fu] in Hfl, Hfm, Hfu, Il, Im, Iu;
  unfold iteration, call, recording_functor; cbv beta zeta iota;
  rewrite Hc;
  match goal with
  | |- context [c ?x] =>
      match x with
      | 0.5 * _ - _ => set (n := x)
      end
  end.

Lemma iteration_sampled (b b' : bracket) (w w' : world recording) :
  sampled c b w -> iteration b w = Continue b' w' -> sampled c b' w'.
Proof.
  destruct b as [l m u fl fm fu]. intros Hs. open_pass Hs.
  body_paths_eqn.
  all: intros E; inversion E; subst; clear E.
  all: unfold sampled; cbn; rewrite ?in_app_iff; cbn; repeat split; auto.
Qed.

Lemma iterate_sampled (k : nat) : forall (b bk : bracket) (w wk : world recording),
  sampled c b w -> iterate k b w = Some (bk, wk) -> sampled c bk wk.
Proof.
  induction k as [|k IH]; intros b bk w wk Hs; cbn [iterate].
  - intros E; inversion E; subst; exact Hs.
  - destruct (iteration b w) as [v w'|b' w'] eqn:E; [discriminate|].
    apply IH. exact (iteration_sampled _ _ _ _ Hs E).
Qed.

(** A pass returns a point at which the cost has been evaluated, unless it
    returns the sentinel with a failure status. *)
Lemma iteration_Return_evaluated (b : bracket) (w w' : world recording) (v : float) :
  sampled c b w -> iteration b w = Return v w' ->
  In v (evaluated (functor w'))
  \/ (v = NAN /\ failure (status (this w')) = true).
Proof.
  destruct b as [l m u fl fm fu]. intros Hs. open_pass Hs.
  body_paths_eqn.
  all: intros E; inversion E; subst; clear E.
  all: cbn; rewrite ?in_app_iff; cbn; auto.
Qed.

End Samples.

(** X4: with a deterministic cost function, at the start of every pass
    through the loop the stored ordinates are the costs of the bracket's
    abscissas, [fl = f(l)], [fm = f(m)] and [fu = f(u)], and the cost has been
    evaluated at [l], [m] and [u]. *)
Theorem bracket_holds_evaluated_points
    (q : QuadraticLineSearch) (c : float -> float) (k : nat)
    (bk : bracket) (wk : world recording)
    (Hrun : iterate k (fst (entry q (mkRecording c [])))
              (snd (entry q (mkRecording c []))) = Some (bk, wk)) :
  b_fl bk = c (b_l bk) /\ b_fm bk = c (b_m bk) /\ b_fu bk = c (b_u bk)
  /\ In (b_l bk) (evaluated (functor wk))
  /\ In (b_m bk) (evaluated (functor wk))
  /\ In (b_u bk) (evaluated (functor wk)).
Proof.
  pose proof (iterate_sampled c k _ _ _ _ (entry_sampled c q []) Hrun) as Hs.
  destruct Hs as (_ & Hs). exact Hs.
Qed.

Lemma bracket_holds_evaluated_points_witness :
  let b := mkBracket 1 2 4 1 0 4 in
  b_fl b = parabola (b_l b) /\ b_fm b = parabola (b_m b)
  /\ b_fu b = parabola (b_u b)
  /\ In (b_l b) [0; 1; 4; 2] /\ In (b_m b) [0; 1; 4; 2] /\ In (b_u b) [0; 1; 4; 2].
Proof.
  apply (bracket_holds_evaluated_points bracket_0_1_4 parabola 1
           (mkBracket 1 2 4 1 0 4)
           (mkWorld (assign_status EXECUTING bracket_0_1_4)
              (mkRecording parabola [0; 1; 4; 2]) None [])).
  vm_compute. reflexivity.
Defined.

(** X5: with a deterministic cost function, whenever [operator()] ends with a
    status other than the three failure statuses, the value it returns is a
    point at which it has evaluated the cost function. *)
Theorem returned_point_was_evaluated
    (q : QuadraticLineSearch) (c : float -> float)
    (Hok : failure (status_after (operator_call q (mkRecording c []))) = false) :
  In (returned (operator_call q (mkRecording c [])))
     (evaluated (functor (snd (operator_call q (mkRecording c []))))).
Proof.
  destruct (operator_call_outcome q (mkRecording c []))
    as [(k & bk & wk & v & w' & _ & Hk & _ & Hret & Hr) | [_ Hs]];
    [|rewrite Hs in Hok; discriminate Hok].
  rewrite Hr in *. unfold status_after, get_status in Hok. cbn [snd fst returned] in *.
  pose proof (iterate_sampled c k _ _ _ _ (entry_sampled c q []) Hk) as Hs.
  destruct (iteration_Return_evaluated c _ _ _ _ Hs Hret) as [Hin | [_ Hfail]];
    [exact Hin|].
  rewrite Hfail in Hok. discriminate Hok.
Qed.

Lemma returned_point_was_evaluated_witness :
  In (returned (operator_call (construct 0 3) (mkRecording quartic [])))
     (evaluated (functor (snd (operator_call (construct 0 3)
                                 (mkRecording quartic []))))).
Proof.
  apply (returned_point_was_evaluated (construct 0 3) quartic).
  vm_compute. reflexivity.
Defined.

(** A pass that starts with status EXECUTING and returns with SUCCESS has
    met a tolerance test: at the chord test, on the bracket of the pass, or
    at the end of the body, on the updated bracket. *)
Lemma iteration_Return_success {F : Type} `{Functor F}
    (b : bracket) (w w' : world F) (v : float) :
  status (this w) = EXECUTING ->
  iteration b w = Return v w' -> status (this w') = SUCCESS ->
  (above_chord b = true /\ v = b_m b
   /\ ((std_min (b_m b - b_l b) (b_u b - b_m b) <? value_tolerance (this w)) = true
       \/ (std_abs ((b_fu b - b_fl b) / (0.5 * (b_fu b + b_fl b)))
             <? function_tolerance (this w)) = true))
  \/ (above_chord b = false
      /\ exists (fn : float) (g : F) (b' : bracket),
           call (functor w) (candidate b) = (fn, g)
           /\ isfinite fn = true
           /\ bracket_update (exit_outside_bounds (this w)) b (candidate b) fn
              = Some b'
           /\ v = b_m b'
           /\ (b_u b' - b_l b' <? value_tolerance (this w)) = true).
Proof.
  intros Hexec. destruct b as [l m u fl fm fu].
  unfold iteration, above_chord, candidate, bracket_update.
  cbv beta zeta iota. cbn [b_l b_m b_u b_fl b_fu].
  set (n := 0.5 * (l + m) - _).
  destruct (fl + (fu - fl) * (m - l) / (u - l) <? fm).
  - destruct (_ || _) eqn:Htest; intros E; inversion E; subst v w'; clear E;
      cbn; [|discriminate].
    intros _. left. apply orb_true_iff in Htest. auto.
  - destruct (call (functor w) n) as [fn g].
    destruct (isfinite fn) eqn:Hfinite; cbn [negb].
    2: { intros E; inversion E; subst v w'; clear E. cbn. rewrite Hexec.
         discriminate. }
    cbn [this with_functor].
    repeat match goal with
    | |- context [if ?c then _ else _] => destruct c eqn:?
    end.
    all: intros E; inversion E; subst v w'; clear E.
    all: cbn [this status write_status advance_progress with_functor
              assign_status b_l b_m b_u] in *.
    all: intros Hsuccess; try discriminate Hsuccess;
         try (rewrite Hexec in Hsuccess; discriminate Hsuccess).
    all: right; split; [reflexivity|].
    all: exists fn, g.
    all: repeat match goal with
         | E : ?c = _ |- context [if ?c then _ else _] => rewrite E
         end.
    all: eexists; split; [reflexivity|]; split; [exact Hfinite|].
    all: split; [reflexivity|]; split; [reflexivity|].
    all: cbn [b_l b_m b_u]; assumption.
Qed.

(** X6: when [operator()] ends with status SUCCESS, it returned from a pass
    through the loop in one of two ways.  Either the chord test fired in that
    pass and, on the bracket [(l, m, u)] of the pass, [min (m-l, u-m)] is
    below the value tolerance or [|(fu-fl) / (0.5*(fu+fl))|] is below the
    function tolerance, and the midpoint [m] is returned.  Or the cost of the
    candidate was finite, the bracket was updated, the updated bracket
    [(l', m', u')] has [u' - l'] below the value tolerance, and [m'] is
    returned. *)
Theorem success_means_tolerance_met {F : Type} {call_F : Functor F}
    (q : QuadraticLineSearch) (f : F)
    (Hsuccess : status_after (operator_call q f) = SUCCESS) :
  exists (k : nat) (bk : bracket) (wk : world F),
    (k < max_iters q)%nat
    /\ iterate k (fst (entry q f)) (snd (entry q f)) = Some (bk, wk)
    /\ ((above_chord bk = true
         /\ returned (operator_call q f) = b_m bk
         /\ ((std_min (b_m bk - b_l bk) (b_u bk - b_m bk) <? value_tolerance q)
               = true
             \/ (std_abs ((b_fu bk - b_fl bk) / (0.5 * (b_fu bk + b_fl bk)))
                   <? function_tolerance q) = true))
        \/ (above_chord bk = false
            /\ exists (fn : float) (g : F) (b' : bracket),
                 call (functor wk) (candidate bk) = (fn, g)
                 /\ isfinite fn = true
                 /\ bracket_update (exit_outside_bounds q) bk (candidate bk) fn
                    = Some b'
                 /\ returned (operator_call q f) = b_m b'
                 /\ (b_u b' - b_l b' <? value_tolerance q) = true)).
Proof.
  destruct (operator_call_outcome q f)
    as [(k & bk & wk & v & w' & Hlt & Hk & Hthis & Hret & Hr) | [_ Hs]];
    [|rewrite Hs in Hsuccess; discriminate Hsuccess].
  rewrite Hr in *. unfold status_after, get_status in Hsuccess.
  cbn [snd fst returned] in *.
  assert (Hexec : status (this wk) = EXECUTING) by (rewrite Hthis; reflexivity).
  pose proof (iteration_Return_success _ _ _ _ Hexec Hret Hsuccess) as Hmet.
  rewrite Hthis in Hmet.
  exists k, bk, wk. split; [exact Hlt|]. split; [exact Hk|]. exact Hmet.
Qed.

Lemma success_means_tolerance_met_witness :
  exists (k : nat) (bk : bracket) (wk : world (float -> float)),
    (k < max_iters (construct 0 3))%nat
    /\ iterate k (fst (entry (construct 0 3) quartic))
         (snd (entry (construct 0 3) quartic)) = Some (bk, wk)
    /\ ((above_chord bk = true
         /\ returned (operator_call (construct 0 3) quartic) = b_m bk
         /\ ((std_min (b_m bk - b_l bk) (b_u bk - b_m bk)
                <? value_tolerance (construct 0 3)) = true
             \/ (std_abs ((b_fu bk - b_fl bk) / (0.5 * (b_fu bk + b_fl bk)))
                   <? function_tolerance (construct 0 3)) = true))
        \/ (above_chord bk = false
            /\ exists (fn : float) (g : float -> float) (b' : bracket),
                 call (functor wk) (candidate bk) = (fn, g)
                 /\ isfinite fn = true
                 /\ bracket_update (exit_outside_bounds (construct 0 3)) bk
                      (candidate bk) fn = Some b'
                 /\ returned (operator_call (construct 0 3) quartic) = b_m b'
                 /\ (b_u b' - b_l b' <? value_tolerance (construct 0 3)) = true)).
Proof.
  apply (@success_means_tolerance_met (float -> float) pure_functor
           (construct 0 3) quartic).
  vm_compute. reflexivity.
Defined.

(** ** Evaluations and the progress bar *)

(** A pass evaluates the cost at most once, after the evaluations made so
    far, and advances the progress bar only after an evaluation. *)
Lemma iteration_counts (b : bracket) (w : world recording) :
  match iteration b w with
  | Continue _ w' =>
      (exists x, evaluated (functor w') = evaluated (functor w) ++ [x])
      /\ progress w' = option_map S (progress w)
  | Return _ w' =>
      (evaluated (functor w') = evaluated (functor w) /\ progress w' = progress w)
      \/ ((exists x, evaluated (functor w') = evaluated (functor w) ++ [x])
          /\ (progress w' = progress w \/ progress w' = option_map S (progress w)))
  end.
Proof.
  destruct b as [l m u fl fm fu]. unfold iteration, call, recording_functor.
  cbv beta zeta iota. body_paths.
  all: cbn; eauto 6.
Qed.

Lemma while_loop_counts (n : nat) : forall (b : bracket) (w : world recording),
  exists (d : nat) (rest : list float),
    (d <= n)%nat
    /\ progress (snd (while_loop n b w)) = option_map (Nat.add d) (progress w)
    /\ evaluated (functor (snd (while_loop n b w))) = evaluated (functor w) ++ rest
    /\ (d <= List.length rest <= d + 1)%nat
    /\ (List.length rest <= n)%nat.
Proof.
  induction n as [|n IH]; intros b w; cbn [while_loop].
  - exists O, []. cbn. rewrite app_nil_r. destruct (progress w); repeat split; lia.
  - pose proof (iteration_counts b w) as Hstep.
    destruct (iteration b w) as [v w'|b' w'].
    + cbn [snd]. destruct Hstep as [(He & Hp) | ((x & He) & [Hp | Hp])].
      * exists O, []. rewrite He, Hp, app_nil_r.
        destruct (progress w); cbn; repeat split; lia.
      * exists O, [x]. rewrite He, Hp.
        destruct (progress w); cbn; repeat split; lia.
      * exists 1%nat, [x]. rewrite He, Hp.
        destruct (progress w); cbn; repeat split; lia.
    + destruct Hstep as ((x & He) & Hp).
      destruct (IH b' w') as (d & rest & Hd & Hprog & Hev & Hlen & Hn).
      exists (S d), (x :: rest). rewrite Hprog, Hev, He, Hp, <- app_assoc.
      destruct (progress w); cbn; rewrite ?Nat.add_succ_r; repeat split; lia.
Qed.

(** X7: whatever the configuration, [operator()] first evaluates the cost
    function at the configured lower, mid and upper points, in this order,
    and after that at most max_iters more times. *)
Theorem evaluations_start_with_the_bracket
    (q : QuadraticLineSearch) (c : float -> float) :
  exists rest : list float,
    evaluated (functor (snd (operator_call q (mkRecording c []))))
    = [init_lower q; init_mid q; init_upper q] ++ rest
    /\ (List.length rest <= max_iters q)%nat.
Proof.
  rewrite operator_call_entry.
  destruct (while_loop_counts (max_iters q) (fst (entry q (mkRecording c [])))
              (snd (entry q (mkRecording c []))))
    as (d & rest & _ & _ & Hev & _ & Hn).
  exists rest. rewrite Hev, entry_evaluated. split; [reflexivity | exact Hn].
Qed.

(** X8: [operator()] has a progress bar exactly when the message is not
    empty; the bar is advanced at most max_iters times, never more often than
    the cost has been evaluated at a candidate, and at most one candidate
    evaluation is not followed by an advance. *)
Theorem progress_follows_evaluations
    (q : QuadraticLineSearch) (c : float -> float) :
  let r := operator_call q (mkRecording c []) in
  exists p : nat,
    progress (snd r)
    = (if (String.length (message q) =? 0)%nat then None else Some p)
    /\ (p <= max_iters q)%nat
    /\ (p <= interpolation_steps r <= p + 1)%nat.
Proof.
  intros r. subst r. unfold interpolation_steps. rewrite operator_call_entry.
  destruct (while_loop_counts (max_iters q) (fst (entry q (mkRecording c [])))
              (snd (entry q (mkRecording c []))))
    as (d & rest & Hd & Hprog & Hev & Hlen & _).
  exists d. rewrite Hprog, Hev, entry_evaluated.
  split; [|split; [exact Hd|]].
  - unfold entry, initialise, call, recording_functor. cbn.
    destruct (String.length (message q) =? 0)%nat; cbn; [reflexivity|].
    now rewrite Nat.add_0_r.
  - rewrite length_app. cbn. lia.
Qed.

(** ** The search stays within the bounds unless told to widen *)

Module FloatChains.

Lemma SFleb_trans (x y z : spec_float) :
  SFleb x y = true -> SFleb y z = true -> SFleb x z = true.
Proof.
  unfold SFleb, SFcompare.
  destruct x as [[]|[]| |[] m1 e1], y as [[]|[]| |[] m2 e2], z as [[]|[]| |[] m3 e3];
    try reflexivity; try discriminate.
  all: change (PosDef.Pos.compare_cont Eq ?a ?b) with (Pos.compare a b).
  all: destruct (Z.compare_spec e1 e2), (Z.compare_spec e2 e3), (Z.compare_spec e1 e3);
    try reflexivity; try discriminate; try lia.
  all: destruct (Pos.compare_spec m1 m2), (Pos.compare_spec m2 m3),
         (Pos.compare_spec m1 m3);
    cbn; try reflexivity; try discriminate; try lia.
Qed.

Lemma leb_trans (a b c : float) :
  (a <=? b) = true -> (b <=? c) = true -> (a <=? c) = true.
Proof. rewrite !FloatAxioms.leb_spec. apply SFleb_trans. Qed.

Lemma leb_refl (a : float) : is_nan a = false -> (a <=? a) = true.
Proof.
  intros Ha. destruct (FloatOrder.compare_cases a a) as [| | |? ? ? ? ? ? []];
    congruence.
Qed.

End FloatChains.

(** Proves [a <= c] from the comparisons at hand, through at most one
    intermediate point. *)
Ltac leb_chain :=
  first
    [ assumption
    | match goal with
      | Hx : (?a <=? ?b) = true, Hy : (?b <=? ?c) = true |- (?a <=? ?c) = true =>
          exact (FloatChains.leb_trans a b c Hx Hy)
      end ].

(** Closes a case in which a number is found both NaN and ordered. *)
Ltac nan_clash :=
  exfalso;
  match goal with
  | A : is_nan ?x = true, B : is_nan ?x = false |- _ =>
      rewrite A in B; discriminate B
  end.

Section Bounds.

Context {F : Type} `{Functor F}.

Variable q : QuadraticLineSearch.

(** With the exit flag set, a pass keeps the bracket ordered and within the
    bounds, and what it returns is within the bounds unless the pass
    fails. *)
Lemma iteration_stays_within (b : bracket) (w : world F) :
  exit_outside_bounds (this w) = true -> within_bounds q b = true ->
  match iteration b w with
  | Continue b' _ => within_bounds q b' = true
  | Return v w' =>
      failure (status (this w')) = true
      \/ ((init_lower q <=? v) = true /\ (v <=? init_upper q) = true)
  end.
Proof.
  destruct b as [l m u fl fm fu]. unfold within_bounds, iteration.
  cbv beta zeta iota. cbn [b_l b_m b_u].
  set (n := 0.5 * (l + m) - _).
  intros Hexit Hb.
  apply andb_prop in Hb as [Hb Hu0]. apply andb_prop in Hb as [Hb Hmu].
  apply andb_prop in Hb as [Hl0 Hlm].
  pose proof (FloatChains.leb_trans _ _ _ Hl0 Hlm) as Hl0m.
  pose proof (FloatChains.leb_trans _ _ _ Hmu Hu0) as Hmu0.
  destruct (FloatOrder.leb_ordered _ _ Hlm) as [Hl Hm].
  destruct (FloatOrder.leb_ordered _ _ Hmu) as [_ Hu].
  destruct (fl + (fu - fl) * (m - l) / (u - l) <? fm).
  { destruct (_ || _); cbn; auto. }
  destruct (call (functor w) n) as [fn g].
  destruct (negb (isfinite fn)).
  { right. auto. }
  cbn [this with_functor]. rewrite Hexit.
  settle n l; settle n m; settle n u; try nan_clash; use_comparisons.
  all: repeat match goal with
       | |- context [if ?c then _ else _] => destruct c
       end.
  all: cbn [this write_status advance_progress with_functor assign_status
            status failure b_l b_m b_u].
  all: first [ left; reflexivity
             | right; split; leb_chain
             | repeat (apply andb_true_intro; split); leb_chain ].
Qed.

Lemma while_loop_stays_within (n : nat) : forall (b : bracket) (w : world F),
  exit_outside_bounds (this w) = true -> within_bounds q b = true ->
  failure (status (this (snd (while_loop n b w)))) = true
  \/ ((init_lower q <=? fst (while_loop n b w)) = true
      /\ (fst (while_loop n b w) <=? init_upper q) = true).
Proof.
  induction n as [|n IH]; intros b w Hexit Hb; cbn [while_loop].
  - left. reflexivity.
  - pose proof (iteration_stays_within b w Hexit Hb) as Hstep.
    destruct (iteration b w) as [v w'|b' w'] eqn:E.
    + exact Hstep.
    + apply IH; [|exact Hstep].
      now rewrite (iteration_Continue_this _ _ _ _ E).
Qed.

End Bounds.

(** X9: when the exit-if-outside-bounds flag is set and the configured points
    satisfy [lower <= mid <= upper], a value returned by [operator()] with a
    status other than the three failure statuses lies between the configured
    lower and upper bounds. *)
Theorem returned_value_within_bounds {F : Type} {call_F : Functor F}
    (q : QuadraticLineSearch) (f : F)
    (Hexit : exit_outside_bounds q = true)
    (Hlm : (init_lower q <=? init_mid q) = true)
    (Hmu : (init_mid q <=? init_upper q) = true)
    (Hok : failure (status_after (operator_call q f)) = false) :
  (init_lower q <=? returned (operator_call q f)) = true
  /\ (returned (operator_call q f) <=? init_upper q) = true.
Proof.
  unfold status_after, get_status, returned in *.
  rewrite operator_call_entry in *.
  destruct (while_loop_stays_within q (max_iters q)
              (fst (entry q f)) (snd (entry q f))) as [Hfail | Hin].
  - rewrite entry_this. exact Hexit.
  - unfold entry, initialise, within_bounds. cbv beta zeta. cbn [this functor].
    repeat match goal with
    | |- context [call ?g ?x] => destruct (call g x)
    end.
    cbn. rewrite Hlm, Hmu.
    destruct (FloatOrder.leb_ordered _ _ Hlm) as [Hl _].
    destruct (FloatOrder.leb_ordered _ _ Hmu) as [_ Hu].
    now rewrite !FloatChains.leb_refl.
  - rewrite Hfail in Hok. discriminate Hok.
  - exact Hin.
Qed.

Lemma returned_value_within_bounds_witness :
  (init_lower (construct 0 3)
     <=? returned (operator_call (construct 0 3) quartic)) = true
  /\ (returned (operator_call (construct 0 3) quartic)
        <=? init_upper (construct 0 3)) = true.
Proof.
  apply (@returned_value_within_bounds (float -> float) pure_functor
           (construct 0 3) quartic).
  all: vm_compute; reflexivity.
Defined.

(** X10: when the exit-if-outside-bounds flag is set and the configured
    points satisfy [lower <= mid <= upper], every pass through the loop of
    [operator()] starts with [lower <= l <= m <= u <= upper]: the bracket is
    ordered and never leaves the configured bounds. *)
Theorem bracket_stays_within_bounds {F : Type} {call_F : Functor F}
    (q : QuadraticLineSearch) (f : F) (k : nat) (bk : bracket) (wk : world F)
    (Hexit : exit_outside_bounds q = true)
    (Hlm : (init_lower q <=? init_mid q) = true)
    (Hmu : (init_mid q <=? init_upper q) = true)
    (Hrun : iterate k (fst (entry q f)) (snd (entry q f)) = Some (bk, wk)) :
  within_bounds q bk = true.
Proof.
  assert (Hentry : within_bounds q (fst (entry q f)) = true).
  { unfold entry, initialise, within_bounds. cbv beta zeta. cbn [this functor].
    repeat match goal with
    | |- context [call ?g ?x] => destruct (call g x)
    end.
    cbn. rewrite Hlm, Hmu.
    destruct (FloatOrder.leb_ordered _ _ Hlm) as [Hl _].
    destruct (FloatOrder.leb_ordered _ _ Hmu) as [_ Hu].
    now rewrite !FloatChains.leb_refl. }
  assert (Hflag : exit_outside_bounds (this (snd (entry q f))) = true)
    by (rewrite entry_this; exact Hexit).
  revert Hrun Hentry Hflag.
  generalize (fst (entry q f)) (snd (entry q f)).
  induction k as [|k IH]; intros b w; cbn [iterate].
  - intros E Hb _. inversion E; subst. exact Hb.
  - intros Hrun Hb Hflag.
    pose proof (iteration_stays_within q b w Hflag Hb) as Hstep.
    destruct (iteration b w) as [v w'|b' w'] eqn:E; [discriminate|].
    apply (IH b' w' Hrun Hstep).
    now rewrite (iteration_Continue_this _ _ _ _ E).
Qed.

Lemma bracket_stays_within_bounds_witness :
  within_bounds bracket_0_1_4 (mkBracket 1 2 4 1 0 4) = true.
Proof.
  apply (@bracket_stays_within_bounds (float -> float) pure_functor
           bracket_0_1_4 parabola 1 (mkBracket 1 2 4 1 0 4)
           (mkWorld (assign_status EXECUTING bracket_0_1_4) parabola None [])).
  all: vm_compute; reflexivity.
Defined.

(** ** A NaN cost at a point of the initial bracket *)

Module NaN.

Lemma is_nan_true (x : float) : is_nan x = true -> x = nan.
Proof.
  rewrite FloatOrder.is_nan_spec. intros E.
  rewrite <- (FloatAxioms.SF2Prim_Prim2SF x).
  destruct (Prim2SF x); try discriminate E. reflexivity.
Qed.

Lemma add_l (y : float) : nan + y = nan.
Proof.
  apply is_nan_true. rewrite FloatOrder.is_nan_spec, FloatAxioms.add_spec.
  reflexivity.
Qed.

Lemma add_r (x : float) : x + nan = nan.
Proof.
  apply is_nan_true. rewrite FloatOrder.is_nan_spec, FloatAxioms.add_spec.
  change (Prim2SF nan) with S754_nan. destruct (Prim2SF x); reflexivity.
Qed.

Lemma sub_l (y : float) : nan - y = nan.
Proof.
  apply is_nan_true. rewrite FloatOrder.is_nan_spec, FloatAxioms.sub_spec.
  reflexivity.
Qed.

Lemma sub_r (x : float) : x - nan = nan.
Proof.
  apply is_nan_true. rewrite FloatOrder.is_nan_spec, FloatAxioms.sub_spec.
  change (Prim2SF nan) with S754_nan. destruct (Prim2SF x); reflexivity.
Qed.

Lemma mul_l (y : float) : nan * y = nan.
Proof.
  apply is_nan_true. rewrite FloatOrder.is_nan_spec, FloatAxioms.mul_spec.
  reflexivity.
Qed.

Lemma mul_r (x : float) : x * nan = nan.
Proof.
  apply is_nan_true. rewrite FloatOrder.is_nan_spec, FloatAxioms.mul_spec.
  change (Prim2SF nan) with S754_nan. destruct (Prim2SF x); reflexivity.
Qed.

Lemma div_l (y : float) : nan / y = nan.
Proof.
  apply is_nan_true. rewrite FloatOrder.is_nan_spec, FloatAxioms.div_spec.
  reflexivity.
Qed.

Lemma div_r (x : float) : x / nan = nan.
Proof.
  apply is_nan_true. rewrite FloatOrder.is_nan_spec, FloatAxioms.div_spec.
  change (Prim2SF nan) with S754_nan. destruct (Prim2SF x); reflexivity.
Qed.

Lemma ltb_l (y : float) : (nan <? y) = false.
Proof. rewrite FloatAxioms.ltb_spec. reflexivity. Qed.

Lemma ltb_r (x : float) : (x <? nan) = false.
Proof.
  rewrite FloatAxioms.ltb_spec. change (Prim2SF nan) with S754_nan.
  unfold SFltb, SFcompare. destruct (Prim2SF x); reflexivity.
Qed.

End NaN.

(** Rewrites an expression with a NaN operand to NaN. *)
Ltac nan_out :=
  rewrite ?NaN.add_l, ?NaN.add_r, ?NaN.sub_l, ?NaN.sub_r,
    ?NaN.mul_l, ?NaN.mul_r, ?NaN.div_l, ?NaN.div_r, ?NaN.ltb_l, ?NaN.ltb_r.

(** A bracket with a NaN ordinate passes the chord test and has a NaN
    candidate. *)
Lemma nan_ordinate (l m u fl fm fu : float) :
  is_nan fl || is_nan fm || is_nan fu = true ->
  above_chord (mkBracket l m u fl fm fu) = false
  /\ candidate (mkBracket l m u fl fm fu) = nan.
Proof.
  unfold above_chord, candidate. cbv beta zeta iota. intros Hnan.
  apply orb_prop in Hnan as [Hnan | Hnan]; [apply orb_prop in Hnan as [Hnan | Hnan]|].
  all: apply NaN.is_nan_true in Hnan; subst.
  all: repeat nan_out; split; reflexivity.
Qed.

(** X11: when the cost at the configured lower, mid or upper point is NaN
    (and the cost of NaN is not finite, as for any arithmetic cost), an
    invocation with at least one iteration allowed returns the configured
    initial estimate after four evaluations and leaves the status
    EXECUTING: the NaN is not reported. *)
Theorem nan_cost_at_bracket_goes_unreported
    (q : QuadraticLineSearch) (c : float -> float)
    (Hiters : (0 < max_iters q)%nat)
    (Hnan : is_nan (c (init_lower q)) || is_nan (c (init_mid q))
            || is_nan (c (init_upper q)) = true)
    (Hctn : isfinite (c nan) = false) :
  let r := operator_call q (mkRecording c []) in
  returned r = init_mid q
  /\ status_after r = EXECUTING
  /\ evaluated (functor (snd r)) = [init_lower q; init_mid q; init_upper q; nan].
Proof.
  intros r. subst r. unfold operator_call, initialise, call, recording_functor.
  cbv beta zeta iota. cbn [this functor init_lower init_mid init_upper
                           assign_status cost evaluated app with_functor].
  destruct (max_iters q) as [|n]; [lia|]. cbn [while_loop].
  match goal with
  | |- context [iteration ?b ?w] =>
      destruct (nan_ordinate (b_l b) (b_m b) (b_u b) (b_fl b) (b_fm b) (b_fu b) Hnan)
        as [Hchord Hcand];
      rewrite (iteration_nonfinite b w (c nan)
                 (mkRecording c [init_lower q; init_mid q; init_upper q; nan]))
  end.
  - repeat split.
  - exact Hchord.
  - cbn [b_l b_m b_u b_fl b_fm b_fu] in Hcand. rewrite Hcand. reflexivity.
  - exact Hctn.
Qed.

Lemma nan_cost_at_bracket_goes_unreported_witness :
  let r := operator_call (construct 0 1) (mkRecording (fun x => 1 / x - 1 / x) []) in
  returned r = init_mid (construct 0 1)
  /\ status_after r = EXECUTING
  /\ evaluated (functor (snd r))
     = [init_lower (construct 0 1); init_mid (construct 0 1);
        init_upper (construct 0 1); nan].
Proof.
  apply (nan_cost_at_bracket_goes_unreported (construct 0 1)
           (fun x => 1 / x - 1 / x)).
  all: vm_compute; try reflexivity. lia.
Defined.

(** ** When [verbose] follows [operator()] *)

Lemma abs_not_below_nonpositive (x t : float) :
  (0 <? t) = false -> (std_abs x <? t) = false.
Proof.
  unfold std_abs. rewrite !FloatAxioms.ltb_spec, FloatAxioms.abs_spec.
  change (Prim2SF 0) with (S754_zero false).
  destruct (Prim2SF x) as [[]|[]| |[] m e], (Prim2SF t) as [[]|[]| |[] m' e'];
    try reflexivity; try discriminate.
Qed.

Section Following.

Variable f : float -> float.

Lemma verbose_iteration_follows (b : bracket) (w1 w2 : world (float -> float)) :
  (0 <? function_tolerance (this w1)) = false ->
  finite_pass f b = true -> agree f w1 w2 ->
  flows_agree f (iteration b w1) (verbose_iteration b w2).
Proof.
  intros Htol Hpass (Hthis & Hf1 & Hf2). destruct b as [l m u fl fm fu].
  unfold finite_pass, above_chord, candidate in Hpass. cbv beta zeta iota in Hpass.
  unfold iteration, verbose_iteration, call, pure_functor.
  cbv beta zeta iota. rewrite Hf1, Hf2.
  rewrite (abs_not_below_nonpositive _ _ Htol), orb_false_r.
  destruct (fl + (fu - fl) * (m - l) / (u - l) <? fm).
  - cbn [this print]. rewrite <- Hthis.
    destruct (std_min (m - l) (u - m) <? _);
      unfold flows_agree, agree; cbn; rewrite ?Hthis; auto.
  - cbn [orb] in Hpass. rewrite Hpass.
    repeat (cbn [negb with_functor write_status advance_progress print this functor
                 b_l b_m b_u];
            rewrite <- ?Hthis;
            match goal with
            | |- context [if ?c then _ else _] => destruct c
            end).
    all: unfold flows_agree, agree; cbn; rewrite ?Hf1, ?Hf2, ?Hthis.
    all: repeat split; reflexivity.
Qed.

Lemma verbose_loop_follows (n : nat) : forall (b : bracket) (w1 w2 : world (float -> float)),
  (0 <? function_tolerance (this w1)) = false ->
  every_pass (finite_pass f) n b w1 = true -> agree f w1 w2 ->
  fst (while_loop n b w1) = fst (verbose_loop n b w2)
  /\ this (snd (while_loop n b w1)) = this (snd (verbose_loop n b w2)).
Proof.
  induction n as [|n IH]; intros b w1 w2 Htol Hpass Hagree;
    cbn [while_loop verbose_loop every_pass] in *.
  - destruct Hagree as (Hthis & _). cbn. now rewrite Hthis.
  - apply andb_prop in Hpass as [Hb Hrest].
    pose proof (verbose_iteration_follows b w1 w2 Htol Hb Hagree) as Hstep.
    destruct (iteration b w1) as [v1 w1'|b1 w1'] eqn:E1,
             (verbose_iteration b w2) as [v2 w2'|b2 w2']; cbn in Hstep; try contradiction.
    + destruct Hstep as (-> & Hthis & _). split; [reflexivity | exact Hthis].
    + destruct Hstep as (-> & Hagree'). apply IH; [|exact Hrest|exact Hagree'].
      now rewrite (iteration_Continue_this _ _ _ _ E1).
Qed.

End Following.

(** X12: when the function tolerance is not positive (as the constructor
    leaves it) and no pass of [operator()] meets a non-finite cost at its
    candidate, [verbose] returns the value [operator()] returns and leaves
    the same status. *)
Theorem verbose_follows_operator_call
    (q : QuadraticLineSearch) (f : float -> float)
    (Htol : (0 <? function_tolerance q) = false)
    (Hfinite : every_pass (finite_pass f) (max_iters q)
                 (fst (entry q f)) (snd (entry q f)) = true) :
  returned (verbose q f) = returned (operator_call q f)
  /\ status_after (verbose q f) = status_after (operator_call q f).
Proof.
  pose (b := mkBracket (init_lower q) (init_mid q) (init_upper q)
               (f (init_lower q)) (f (init_mid q)) (f (init_upper q))).
  pose (e := assign_status EXECUTING q).
  pose (w1 := mkWorld e f
                (if (String.length (message q) =? 0)%nat then None else Some O) []).
  pose (w2 := mkWorld e f None
                [Text "Initialising quadratic line search";
                 Text "        Lower        Mid         Upper";
                 Pos (b_l b) (b_m b) (b_u b); Value (b_fl b) (b_fm b) (b_fu b)]).
  change (operator_call q f) with (while_loop (max_iters q) b w1).
  change (verbose q f) with (verbose_loop (max_iters q) b w2).
  change (entry q f) with (b, w1) in Hfinite.
  destruct (verbose_loop_follows f (max_iters q) b w1 w2) as [Hv Hs].
  - exact Htol.
  - exact Hfinite.
  - repeat split.
  - unfold returned, status_after, get_status. rewrite Hv, Hs. split; reflexivity.
Qed.

Lemma verbose_follows_operator_call_witness :
  returned (verbose (construct 0 3) quartic)
  = returned (operator_call (construct 0 3) quartic)
  /\ status_after (verbose (construct 0 3) quartic)
     = status_after (operator_call (construct 0 3) quartic).
Proof.
  apply (verbose_follows_operator_call (construct 0 3) quartic).
  all: vm_compute; reflexivity.
Defined.

(** ** What the status says after [verbose] *)

Section VerboseOutcome.

Context {F : Type} `{Functor F}.

Lemma verbose_iteration_Continue_this (b b' : bracket) (w w' : world F) :
  verbose_iteration b w = Continue b' w' -> this w' = this w.
Proof.
  destruct b as [l m u fl fm fu]. unfold verbose_iteration. body_paths.
  all: intros E; inversion E; reflexivity.
Qed.

Lemma verbose_iteration_Return_outcome (b : bracket) (w w' : world F) (v : float) :
  verbose_iteration b w = Return v w' ->
  this w' = this w
  \/ this w' = assign_status SUCCESS (this w)
  \/ (v = NAN /\ this w' = assign_status NONCONVEX (this w))
  \/ (v = NAN /\ this w' = assign_status OUTSIDE_BOUNDS (this w)
      /\ exit_outside_bounds (this w) = true).
Proof.
  destruct b as [l m u fl fm fu]. unfold verbose_iteration.
  cbv beta zeta. cbn [this with_functor print].
  body_paths_eqn.
  all: intros E; inversion E; subst; clear E; cbn; auto 6.
Qed.

Lemma verbose_loop_outcome (n : nat) : forall (b : bracket) (w : world F),
  status (this w) = EXECUTING ->
  (failure (status (this (snd (verbose_loop n b w)))) = true ->
   fst (verbose_loop n b w) = NAN)
  /\ (exit_outside_bounds (this w) = false ->
      status (this (snd (verbose_loop n b w))) <> OUTSIDE_BOUNDS).
Proof.
  induction n as [|n IH]; intros b w Hexec; cbn [verbose_loop].
  - cbn. split; [reflexivity | discriminate].
  - destruct (verbose_iteration b w) as [v w'|b' w'] eqn:E.
    + cbn [fst snd].
      destruct (verbose_iteration_Return_outcome _ _ _ _ E)
        as [Hs | [Hs | [(-> & Hs) | (-> & Hs & Hexit)]]]; rewrite Hs.
      * rewrite Hexec. split; [discriminate | discriminate].
      * split; [discriminate | discriminate].
      * split; [reflexivity | discriminate].
      * split; [reflexivity|]. intros Hno. rewrite Hno in Hexit. discriminate Hexit.
    + pose proof (verbose_iteration_Continue_this _ _ _ _ E) as Hthis.
      rewrite <- Hthis. apply IH. now rewrite Hthis.
Qed.

End VerboseOutcome.

(** X13: when the status after [verbose] is one of the three failure
    statuses, the returned value is the NaN sentinel. *)
Theorem verbose_failure_returns_sentinel {F : Type} {call_F : Functor F}
    (q : QuadraticLineSearch) (f : F)
    (Hfailed : failure (status_after (verbose q f)) = true) :
  returned (verbose q f) = NAN.
Proof.
  unfold status_after, get_status, returned, verbose in *.
  destruct (initialise _) as [b w] eqn:E.
  refine (proj1 (verbose_loop_outcome (max_iters q) b _ _) Hfailed).
  cbn [this print].
  replace w with (snd (initialise (mkWorld (assign_status EXECUTING q) f None [])))
    by (rewrite E; reflexivity).
  rewrite initialise_this. reflexivity.
Qed.

Lemma verbose_failure_returns_sentinel_witness :
  returned (verbose bracket_0_1_4 concave_parabola) = NAN.
Proof.
  apply (@verbose_failure_returns_sentinel (float -> float) pure_functor).
  vm_compute. reflexivity.
Defined.

(** X14: once [set_exit_if_outside_bounds (false)] has been called, no
    invocation of [verbose] ends with status OUTSIDE_BOUNDS. *)
Theorem verbose_never_outside_bounds_when_widening {F : Type} {call_F : Functor F}
    (q : QuadraticLineSearch) (f : F) :
  status_after (verbose (set_exit_if_outside_bounds false q) f) <> OUTSIDE_BOUNDS.
Proof.
  unfold status_after, get_status, verbose.
  destruct (initialise _) as [b w] eqn:E.
  assert (Hthis : this w = assign_status EXECUTING (set_exit_if_outside_bounds false q)).
  { replace w with (snd (initialise
                           (mkWorld (assign_status EXECUTING
                                       (set_exit_if_outside_bounds false q))
                              f None [])))
      by (rewrite E; reflexivity).
    now rewrite initialise_this. }
  apply (verbose_loop_outcome (max_iters (set_exit_if_outside_bounds false q)) b).
  - cbn [this print]. rewrite Hthis. reflexivity.
  - cbn [this print]. rewrite Hthis. reflexivity.
Qed.

(** * Facts about the fixel format helpers *)

Module FixelFormatFacts.

Import FixelFormat.

Section Headers.

Variable n_fixels_key : string.
Variable stoul : string -> outcome Z.
Variable unsigned_long_bits : Z.

#[local] Abbreviation is_index_image := (is_index_image n_fixels_key).
#[local] Abbreviation fixels_match := (fixels_match n_fixels_key stoul unsigned_long_bits).
#[local] Abbreviation check_fixel_size := (check_fixel_size n_fixels_key stoul unsigned_long_bits).

Lemma is_index_image_Some (i : Header) :
  is_index_image i = true <-> exists v, keyval i n_fixels_key = Some v.
Proof.
  unfold FixelFormat.is_index_image, count.
  destruct (keyval i n_fixels_key) as [v|]; split.
  - intros _. now exists v.
  - reflexivity.
  - discriminate.
  - intros [v Hv]. discriminate Hv.
Qed.

(** X15: without the fixel-count key [fixels_match] returns false; with the
    key it returns whether [std::stoul] of the stored value equals the first
    size of the data image taken as an [unsigned long], and throws what
    [std::stoul] throws.  So it never raises the [std::out_of_range] of
    [std::map::at], and anything it throws is thrown by [std::stoul] on the
    value stored under the key. *)
Theorem fixels_match_throws_only_from_stoul (index_h data_h : Header) :
  match keyval index_h n_fixels_key with
  | None => fixels_match index_h data_h = Returns false
  | Some v =>
      match stoul v with
      | Returns n =>
          fixels_match index_h data_h
          = Returns (n =? to_unsigned_long unsigned_long_bits (size data_h 0))%Z
      | Throws e => fixels_match index_h data_h = Throws e
      end
  end
  /\ forall e : exn,
       fixels_match index_h data_h = Throws e ->
       exists v : string,
         keyval index_h n_fixels_key = Some v /\ stoul v = Throws e.
Proof.
  unfold FixelFormat.fixels_match, FixelFormat.is_index_image, count, at_key.
  destruct (keyval index_h n_fixels_key) as [v|]; cbn.
  - destruct (stoul v) as [n|e0] eqn:Hn; cbn.
    + split; [reflexivity|]. intros e Hthrows. discriminate Hthrows.
    + split; [reflexivity|]. intros e Hthrows. exists v.
      split; [reflexivity|]. inversion Hthrows; subst e. exact Hn.
  - split; [reflexivity|]. intros e Hthrows. discriminate Hthrows.
Qed.

(** X16: [check_fixel_size] returns normally exactly when the index header
    has the fixel-count key, the data header has three dimensions with size 1
    along the third, and [std::stoul] converts the stored count to the first
    size of the data image taken as an [unsigned long]. *)
Theorem check_fixel_size_accepts (index_h data_h : Header) :
  check_fixel_size index_h data_h = Returns tt
  <-> exists (v : string) (n : Z),
        keyval index_h n_fixels_key = Some v
        /\ ndim data_h = 3%nat /\ size data_h 2 = 1%Z
        /\ stoul v = Returns n
        /\ n = to_unsigned_long unsigned_long_bits (size data_h 0).
Proof.
  unfold FixelFormat.check_fixel_size, check_index_image, check_data_image,
    FixelFormat.fixels_match, FixelFormat.is_index_image, is_data_image, count, at_key.
  destruct (keyval index_h n_fixels_key) as [v|]; cbn.
  2: { split; [discriminate|]. intros (v & n & Hv & _). discriminate Hv. }
  destruct (Nat.eqb_spec (ndim data_h) 3) as [Hd|Hd]; cbn.
  2: { split; [discriminate|]. intros (v' & n & _ & Hd' & _). contradiction. }
  destruct (Z.eqb_spec (size data_h 2) 1) as [Hs|Hs]; cbn.
  2: { split; [discriminate|]. intros (v' & n & _ & _ & Hs' & _). contradiction. }
  destruct (stoul v) as [n|e] eqn:Hn; cbn.
  2: { split; [discriminate|]. intros (v' & n & Hv & _ & _ & Hn' & _).
       inversion Hv; subst. rewrite Hn in Hn'. discriminate Hn'. }
  destruct (Z.eqb_spec n (to_unsigned_long unsigned_long_bits (size data_h 0)))
    as [Hm|Hm]; cbn.
  - split; [|reflexivity]. intros _. exists v, n. auto.
  - split; [discriminate|]. intros (v' & n' & Hv & _ & _ & Hn' & Hm').
    inversion Hv; subst v'. rewrite Hn in Hn'. inversion Hn'; subst n'. contradiction.
Qed.

(** X17: when the index header lacks the fixel-count key or the data header
    is not a three-dimensional image of size 1 along the third axis,
    [check_fixel_size] throws an [MR::Exception], about the index image if
    that is at fault and about the data image otherwise; the stored count is
    not converted, so no exception of [std::stoul] is seen. *)
Theorem check_fixel_size_reports_headers_first (index_h data_h : Header)
    (Hbad : is_index_image index_h && is_data_image data_h = false) :
  check_fixel_size index_h data_h
  = Throws (Exception
      (if is_index_image index_h
       then (name data_h ++ " is not a valid fixel data image. Expected a 3-dimensionl image of size n x m x 1")%string
       else (name index_h ++ " is not a valid fixel index image. Header key "
               ++ n_fixels_key ++ " not found")%string)).
Proof.
  unfold FixelFormat.check_fixel_size, check_index_image, check_data_image.
  destruct (is_index_image index_h); cbn in *; [|reflexivity].
  rewrite Hbad. reflexivity.
Qed.

End Headers.

Section Folders.

Variable n_fixels_key : string.
Variable supported_fixel_formats : list string.
Variable str : string -> string.
Variable FS : Type.
Variable Path_exists : FS -> string -> outcome bool.
Variable Path_is_dir : FS -> string -> outcome bool.
Variable File_mkdir : FS -> string -> outcome FS.
Variable Path_Dir : FS -> string -> outcome (list string).
Variable Path_join : string -> string -> string.
Variable Path_has_suffix : string -> list string -> bool.
Variable Header_open : FS -> string -> outcome Header.

#[local] Abbreviation is_index_image := (is_index_image n_fixels_key).
#[local] Abbreviation check_fixel_folder := (check_fixel_folder str FS Path_exists Path_is_dir File_mkdir).
#[local] Abbreviation find_index_loop :=
  (find_index_loop n_fixels_key supported_fixel_formats FS Path_join Path_has_suffix
     Header_open).
#[local] Abbreviation find_index_header :=
  (find_index_header n_fixels_key supported_fixel_formats str FS Path_exists
     Path_is_dir File_mkdir Path_Dir Path_join Path_has_suffix Header_open).

(** Without [create_if_missing], [check_fixel_folder] returns normally
    exactly when the path exists and is a directory; it then returns true and
    leaves the file system as it was. *)
Theorem check_fixel_folder_checks (fs : FS) (path : string) (r : bool * FS) :
  check_fixel_folder fs path false = Returns r
  <-> Path_exists fs path = Returns true
      /\ Path_is_dir fs path = Returns true
      /\ r = (true, fs).
Proof.
  unfold FixelFormat.check_fixel_folder.
  destruct (Path_exists fs path) as [[|]|e]; cbn.
  - destruct (Path_is_dir fs path) as [[|]|e']; cbn.
    + split.
      * intros E; inversion E; auto.
      * intros (_ & _ & ->). reflexivity.
    + split; [discriminate|]. intros (_ & E & _). discriminate E.
    + split; [discriminate|]. intros (_ & E & _). discriminate E.
  - split; [discriminate|]. intros (E & _). discriminate E.
  - split; [discriminate|]. intros (E & _). discriminate E.
Qed.

(** X18: with [create_if_missing], [check_fixel_folder] returns false exactly
    when the path did not exist and [File::mkdir] created it: the value
    returned says whether the folder was there before the call, not whether
    it is there after it. *)
Theorem check_fixel_folder_false_when_created (fs fs' : FS) (path : string) :
  check_fixel_folder fs path true = Returns (false, fs')
  <-> Path_exists fs path = Returns false /\ File_mkdir fs path = Returns fs'.
Proof.
  unfold FixelFormat.check_fixel_folder.
  destruct (Path_exists fs path) as [[|]|e]; cbn.
  - destruct (Path_is_dir fs path) as [[|]|e']; cbn.
    all: split; [discriminate|]; intros (E & _); discriminate E.
  - destruct (File_mkdir fs path) as [fs''|e']; cbn.
    + split.
      * intros E; inversion E; auto.
      * intros (_ & E). inversion E. reflexivity.
    + split; [discriminate|]. intros (_ & E). discriminate E.
  - split; [discriminate|]. intros (E & _). discriminate E.
Qed.

(** What the loop delivers when it finds an index image: the header of the
    first name with a supported suffix whose image has the fixel-count key;
    every name before it is not empty and, when its suffix is supported, was
    opened and found not to be an index image. *)
Lemma find_index_loop_found (fs : FS) (path : string) (names : list string) :
  forall (H0 H : Header),
    find_index_loop fs path names H0 = Returns (true, H) ->
    is_index_image H = true
    /\ exists (before : list string) (fname : string) (after : list string),
         names = before ++ fname :: after
         /\ Path_has_suffix fname supported_fixel_formats = true
         /\ Header_open fs (Path_join path fname) = Returns H
         /\ forall x, In x before ->
              x <> EmptyString
              /\ (Path_has_suffix x supported_fixel_formats = true ->
                  exists Hx, Header_open fs (Path_join path x) = Returns Hx
                             /\ is_index_image Hx = false).
Proof.
  induction names as [|fname names IH]; intros H0 H; cbn [FixelFormat.find_index_loop].
  - discriminate.
  - destruct (String.length fname =? 0)%nat eqn:Hempty; [discriminate|].
    assert (Hne : fname <> EmptyString)
      by (intros ->; discriminate Hempty).
    destruct (Path_has_suffix fname supported_fixel_formats) eqn:Hsuffix.
    + destruct (Header_open fs (Path_join path fname)) as [H'|e] eqn:Hopen;
        cbn; [|discriminate].
      destruct (is_index_image H') eqn:Hindex.
      * intros E; inversion E; subst H'. split; [exact Hindex|].
        exists [], fname, names.
        split; [reflexivity|]. split; [exact Hsuffix|]. split; [exact Hopen|].
        intros x [].
      * intros Hrest. destruct (IH _ _ Hrest)
          as (Hi & before & y & after & -> & Hsy & Hoy & Hbefore).
        split; [exact Hi|]. exists (fname :: before), y, after.
        split; [reflexivity|]. split; [exact Hsy|]. split; [exact Hoy|].
        intros x [<- | Hin]; [|now apply Hbefore].
        split; [exact Hne|]. intros _. now exists H'.
    + intros Hrest. destruct (IH _ _ Hrest)
        as (Hi & before & y & after & -> & Hsy & Hoy & Hbefore).
      split; [exact Hi|]. exists (fname :: before), y, after.
      split; [reflexivity|]. split; [exact Hsy|]. split; [exact Hoy|].
      intros x [<- | Hin]; [|now apply Hbefore].
      split; [exact Hne|]. intros Hs. rewrite Hs in Hsuffix. discriminate Hsuffix.
Qed.

(** Names without a supported suffix are passed over without opening
    anything. *)
Lemma find_index_loop_no_candidates (fs : FS) (path : string) (names : list string) :
  forall H0 : Header,
    forallb (fun x => negb (Path_has_suffix x supported_fixel_formats)) names = true ->
    find_index_loop fs path names H0 = Returns (false, H0).
Proof.
  induction names as [|fname names IH]; intros H0; cbn [forallb FixelFormat.find_index_loop].
  - reflexivity.
  - intros Hall. apply andb_prop in Hall as [Hno Hrest].
    apply negb_true_iff in Hno. rewrite Hno.
    destruct (String.length fname =? 0)%nat; [reflexivity|]. now apply IH.
Qed.

(** X19: a header returned by [find_index_header] is an index image: the
    folder exists and is a directory, and the header is that of the first
    name delivered by the directory walker that has a supported suffix and
    whose image has the fixel-count key; every name before it is not empty
    and, when its suffix is supported, was opened and found not to be an
    index image. *)
Theorem find_index_header_returns_first_index_image
    (H0 H : Header) (fs : FS) (path : string)
    (Hreturns : find_index_header H0 fs path = Returns H) :
  is_index_image H = true
  /\ Path_exists fs path = Returns true
  /\ Path_is_dir fs path = Returns true
  /\ exists (before : list string) (fname : string) (after : list string),
       Path_Dir fs path = Returns (before ++ fname :: after)
       /\ Path_has_suffix fname supported_fixel_formats = true
       /\ Header_open fs (Path_join path fname) = Returns H
       /\ forall x, In x before ->
            x <> EmptyString
            /\ (Path_has_suffix x supported_fixel_formats = true ->
                exists Hx, Header_open fs (Path_join path x) = Returns Hx
                           /\ is_index_image Hx = false).
Proof.
  unfold FixelFormat.find_index_header in Hreturns.
  destruct (check_fixel_folder fs path false) as [r|e] eqn:Hcheck;
    [|discriminate Hreturns].
  apply check_fixel_folder_checks in Hcheck as (Hexists & Hdir & ->).
  cbn in Hreturns.
  destruct (Path_Dir fs path) as [names|e] eqn:Hnames; [|discriminate Hreturns].
  cbn in Hreturns.
  destruct (find_index_loop fs path names H0) as [[[|] H']|e] eqn:Hloop;
    cbn in Hreturns; try discriminate Hreturns.
  inversion Hreturns; subst H'.
  destruct (find_index_loop_found _ _ _ _ _ Hloop)
    as (Hi & before & fname & after & -> & Hrest).
  split; [exact Hi|]. split; [exact Hexists|]. split; [exact Hdir|].
  exists before, fname, after. split; [reflexivity | exact Hrest].
Qed.

(** X20: when the folder exists and is a directory but none of the names in
    it has a supported suffix, [find_index_header] throws its [MR::Exception]
    without opening any image. *)
Theorem find_index_header_without_candidates
    (H0 : Header) (fs : FS) (path : string) (names : list string)
    (Hexists : Path_exists fs path = Returns true)
    (Hdir : Path_is_dir fs path = Returns true)
    (Hnames : Path_Dir fs path = Returns names)
    (Hnone : forallb (fun x => negb (Path_has_suffix x supported_fixel_formats))
               names = true) :
  find_index_header H0 fs path
  = Throws (Exception ("Could not find index image in directory " ++ path)%string).
Proof.
  unfold FixelFormat.find_index_header, FixelFormat.check_fixel_folder.
  rewrite Hexists. cbn. rewrite Hdir. cbn. rewrite Hnames. cbn.
  rewrite (find_index_loop_no_candidates _ _ _ _ Hnone). reflexivity.
Qed.

End Folders.

Lemma fixels_match_throws_only_from_stoul_witness :
  fixels_match Sample.n_fixels_key Sample.stoul Sample.unsigned_long_bits
    Sample.plain_image Sample.data_image = Returns false
  /\ exists v : string,
       keyval Sample.garbled_index_image Sample.n_fixels_key = Some v
       /\ Sample.stoul v = Throws std_invalid_argument.
Proof.
  split.
  - exact (proj1 (fixels_match_throws_only_from_stoul Sample.n_fixels_key
                    Sample.stoul Sample.unsigned_long_bits
                    Sample.plain_image Sample.data_image)).
  - apply (proj2 (fixels_match_throws_only_from_stoul Sample.n_fixels_key
                    Sample.stoul Sample.unsigned_long_bits
                    Sample.garbled_index_image Sample.data_image)).
    vm_compute. reflexivity.
Defined.

Lemma check_fixel_size_reports_headers_first_witness :
  check_fixel_size Sample.n_fixels_key Sample.stoul Sample.unsigned_long_bits
    Sample.garbled_index_image Sample.plain_image
  = Throws (Exception "fixels/dwi.mif is not a valid fixel data image. Expected a 3-dimensionl image of size n x m x 1").
Proof.
  apply (check_fixel_size_reports_headers_first Sample.n_fixels_key Sample.stoul
           Sample.unsigned_long_bits Sample.garbled_index_image Sample.plain_image).
  vm_compute. reflexivity.
Defined.

Lemma find_index_header_returns_first_index_image_witness :
  is_index_image Sample.n_fixels_key Sample.index_image = true.
Proof.
  apply (find_index_header_returns_first_index_image Sample.n_fixels_key
           Sample.supported_fixel_formats Sample.str Sample.FS Sample.Path_exists
           Sample.Path_is_dir Sample.File_mkdir Sample.Path_Dir Sample.Path_join
           Sample.Path_has_suffix Sample.Header_open
           Sample.plain_image Sample.index_image tt "fixels").
  vm_compute. reflexivity.
Defined.

Lemma find_index_header_without_candidates_witness :
  find_index_header Sample.n_fixels_key ["gz"%string] Sample.str Sample.FS
    Sample.Path_exists Sample.Path_is_dir Sample.File_mkdir Sample.Path_Dir
    Sample.Path_join Sample.Path_has_suffix Sample.Header_open
    Sample.plain_image tt "fixels"
  = Throws (Exception "Could not find index image in directory fixels").
Proof.
  apply (find_index_header_without_candidates Sample.n_fixels_key ["gz"%string]
           Sample.str Sample.FS Sample.Path_exists Sample.Path_is_dir
           Sample.File_mkdir Sample.Path_Dir Sample.Path_join
           Sample.Path_has_suffix Sample.Header_open
           Sample.plain_image tt "fixels"
           ["notes.txt"; "afd.mif"; "index.mif"]%string).
  all: vm_compute; reflexivity.
Defined.

End FixelFormatFacts.

(** * Facts about the script [average_response] *)

Module AverageResponseFacts.

Import AverageResponse.

Section Script.

Variable readlines : string -> option (list string).
Variable writable : string -> bool.
Variable float_of_string : string -> option float.
Variable float_of_int : nat -> float.
Variable str : nat -> string.
Variable format_5f : float -> string.

#[local] Abbreviation check_others := (check_others readlines).
#[local] Abbreviation check_inputs := (check_inputs readlines).
#[local] Abbreviation add_coefficients := (add_coefficients float_of_string float_of_int).
#[local] Abbreviation add_lines := (add_lines float_of_string float_of_int).
#[local] Abbreviation add_subjects := (add_subjects readlines float_of_string float_of_int).
#[local] Abbreviation same_shape := (same_shape readlines).
#[local] Abbreviation main :=
  (main readlines writable float_of_string float_of_int str format_5f).

Lemma check_coefficients_None (file : string) (num_coeff : nat) (lines : list string) :
  check_coefficients file num_coeff lines = None ->
  forall l, In l lines -> List.length (split l) = num_coeff.
Proof.
  induction lines as [|l0 lines IH]; cbn [check_coefficients]; intros Hok l Hin.
  - destruct Hin.
  - destruct (Nat.eqb_spec (List.length (split l0)) num_coeff) as [E|E];
      cbn in Hok; [|discriminate Hok].
    destruct Hin as [<- | Hin]; [exact E | now apply IH].
Qed.

Lemma check_others_shape (files : list string) (num_bvals num_coeff : nat) :
  check_others files num_bvals num_coeff = inl tt ->
  same_shape files num_bvals num_coeff.
Proof.
  induction files as [|file files IH]; cbn [AverageResponse.check_others];
    intros Hok f Hin.
  - destruct Hin.
  - destruct (readlines file) as [lines|] eqn:Hread; [|discriminate Hok].
    destruct (Nat.eqb_spec (List.length lines) num_bvals) as [E|E];
      cbn in Hok; [|discriminate Hok].
    destruct (check_coefficients file num_coeff lines) eqn:Hc; [discriminate Hok|].
    destruct Hin as [<- | Hin]; [|now apply IH].
    exists lines. split; [exact Hread|]. split; [exact E|].
    now apply check_coefficients_None with (file := file).
Qed.

Lemma check_inputs_shape (files : list string) (num_bvals num_coeff : nat) :
  check_inputs files = inl (num_bvals, num_coeff) ->
  same_shape files num_bvals num_coeff.
Proof.
  destruct files as [|file files]; cbn [AverageResponse.check_inputs].
  - intros _ f [].
  - destruct (readlines file) as [lines|] eqn:Hread; [|discriminate].
    destruct lines as [|first lines]; [discriminate|].
    destruct (check_coefficients file _ (first :: lines)) eqn:Hc; [discriminate|].
    destruct (check_others files _ _) as [[]|r] eqn:Ho; [|discriminate].
    intros E; inversion E; subst. intros f [<- | Hin].
    + exists (first :: lines). split; [exact Hread|]. split; [reflexivity|].
      now apply check_coefficients_None with (file := file).
    + now apply (check_others_shape _ _ _ Ho).
Qed.

(** The later passes of the first loop end a run early only by [exit (1)]
    or by [IOError]. *)
Lemma check_others_early (files : list string) (num_bvals num_coeff : nat) (r : run) :
  check_others files num_bvals num_coeff = inr r ->
  ended r = SystemExit 1 \/ ended r = IOError.
Proof.
  induction files as [|f files IH]; cbn [AverageResponse.check_others];
    [discriminate|].
  destruct (readlines f) as [ls|]; [|intros E; inversion E; auto].
  destruct (negb _); [intros E; inversion E; auto|].
  destruct (check_coefficients f num_coeff ls); [intros E; inversion E; auto|].
  exact IH.
Qed.

(** The first loop ends a run early only by [exit (1)], by [IOError], or by
    [IndexError] on an empty first file. *)
Lemma check_inputs_early (files : list string) (r : run) :
  check_inputs files = inr r ->
  ended r = SystemExit 1 \/ ended r = IOError
  \/ (ended r = IndexError
      /\ exists file files', files = file :: files' /\ readlines file = Some []).
Proof.
  destruct files as [|file files]; cbn [AverageResponse.check_inputs]; [discriminate|].
  destruct (readlines file) as [lines|] eqn:Hread; [|intros E; inversion E; auto].
  destruct lines as [|first lines].
  { intros E; inversion E. right. right. split; [reflexivity|].
    now exists file, files. }
  destruct (check_coefficients file _ (first :: lines));
    [intros E; inversion E; auto|].
  destruct (check_others files _ _) as [[]|r'] eqn:Ho; [discriminate|].
  intros E; inversion E; subst r'.
  destruct (check_others_early _ _ _ _ Ho); auto.
Qed.

Lemma add_coefficients_row (n : nat) (coeff : list string) (row : list float) :
  forall (c : nat),
    match add_coefficients n coeff c row with
    | inl row' => List.length row' = List.length row
    | inr e =>
        e = ValueError
        \/ (e = IndexError /\ (List.length coeff < c + List.length row)%nat)
    end.
Proof.
  induction row as [|a row IH]; intros c; cbn [AverageResponse.add_coefficients].
  - reflexivity.
  - destruct (nth_error coeff c) as [field|] eqn:Hnth.
    + destruct (float_of_string field); [|now left].
      specialize (IH (S c)).
      destruct (add_coefficients n coeff (S c) row); cbn [List.length].
      * now rewrite IH.
      * destruct IH as [E | [E Hlt]]; [now left | right; split; [exact E | lia]].
    + right. split; [reflexivity|].
      apply nth_error_None in Hnth. cbn [List.length]. lia.
Qed.

Lemma add_lines_table (n num_coeff : nat) (lines : list string) :
  (forall l, In l lines -> List.length (split l) = num_coeff) ->
  forall (rows : list (list float)) (l : nat),
    (forall row, In row rows -> List.length row = num_coeff) ->
    match add_lines n lines l rows with
    | inl rows' =>
        List.length rows' = List.length rows
        /\ forall row, In row rows' -> List.length row = num_coeff
    | inr e =>
        e = ValueError
        \/ (e = IndexError /\ (List.length lines < l + List.length rows)%nat)
    end.
Proof.
  intros Hlines. induction rows as [|row rows IH]; intros l Hrows;
    cbn [AverageResponse.add_lines].
  - split; [reflexivity|]. intros row [].
  - destruct (nth_error lines l) as [line|] eqn:Hnth.
    + pose proof (add_coefficients_row n (split line) row O) as Hrow.
      assert (Hline : List.length (split line) = num_coeff)
        by (apply Hlines; eapply nth_error_In; exact Hnth).
      assert (Hlen : List.length row = num_coeff) by (apply Hrows; now left).
      destruct (add_coefficients n (split line) O row) as [row'|e].
      * specialize (IH (S l) (fun r Hr => Hrows r (or_intror Hr))).
        destruct (add_lines n lines (S l) rows) as [rows'|e]; cbn [List.length].
        -- destruct IH as [IHlen IHrows]. split; [now rewrite IHlen|].
           intros r [<- | Hr]; [lia | now apply IHrows].
        -- destruct IH as [E | [E Hlt]]; [now left | right; split; [exact E | lia]].
      * destruct Hrow as [E | [E Hlt]]; [now left | lia].
    + right. split; [reflexivity|].
      apply nth_error_None in Hnth. cbn [List.length]. lia.
Qed.

(** On input files of one shape the second loop keeps the shape of the
    table, and it ends early only by [ValueError] or [IOError]. *)
Lemma add_subjects_table (n num_bvals num_coeff : nat) (files : list string) :
  same_shape files num_bvals num_coeff ->
  forall rows : list (list float),
    table num_bvals num_coeff rows ->
    match add_subjects n files rows with
    | inl rows' => table num_bvals num_coeff rows'
    | inr e => e = ValueError \/ e = IOError
    end.
Proof.
  induction files as [|file files IH]; intros Hshape rows Hrows;
    cbn [AverageResponse.add_subjects].
  - exact Hrows.
  - destruct (Hshape file (or_introl eq_refl)) as (lines & Hread & Hlen & Hfields).
    rewrite Hread. destruct Hrows as [Hn Hrows].
    pose proof (add_lines_table n num_coeff lines Hfields rows O Hrows) as Hadd.
    destruct (add_lines n lines O rows) as [rows'|e].
    + destruct Hadd as [Hlen' Hrows']. apply IH.
      * intros f Hf. apply Hshape. now right.
      * split; [now rewrite Hlen' | exact Hrows'].
    + destruct Hadd as [E | [E Hlt]]; [now left | lia].
Qed.

Lemma repeat_table (num_bvals num_coeff : nat) :
  table num_bvals num_coeff (repeat (repeat 0%float num_coeff) num_bvals).
Proof.
  split; [apply repeat_length|].
  intros row Hin. apply repeat_spec in Hin. subst. apply repeat_length.
Qed.

(** X21: when the script runs to completion, every input file could be read,
    all input files have the same number of lines, all their lines have the
    same number of fields, and the output file has as many lines as an input
    file, each the rendering of as many numbers as an input line has
    fields. *)
Theorem finished_run_shapes (argv written : list string)
    (Hfinished : ended (main argv) = Finished written) :
  exists (num_bvals num_coeff : nat) (rows : list (list float)),
    same_shape (inputs argv) num_bvals num_coeff
    /\ written = map (line_out format_5f) rows
    /\ table num_bvals num_coeff rows.
Proof.
  unfold AverageResponse.main in Hfinished.
  destruct (List.length argv <? 3)%nat; [discriminate Hfinished|].
  fold (inputs argv) in Hfinished.
  destruct (check_inputs (inputs argv)) as [[num_bvals num_coeff]|r] eqn:Hcheck.
  2: { cbn in Hfinished.
       destruct (check_inputs_early _ _ Hcheck) as [E | [E | [E _]]];
         rewrite E in Hfinished; discriminate Hfinished. }
  pose proof (check_inputs_shape _ _ _ Hcheck) as Hshape.
  pose proof (add_subjects_table (List.length argv - 2) num_bvals num_coeff
                (inputs argv) Hshape _ (repeat_table num_bvals num_coeff)) as Hadd.
  destruct (add_subjects (List.length argv - 2) (inputs argv) _) as [rows|e].
  2: { cbn in Hfinished. destruct Hadd as [E | E]; rewrite E in Hfinished;
       discriminate Hfinished. }
  destruct (writable _); [|discriminate Hfinished].
  cbn in Hfinished. inversion Hfinished; subst written.
  exists num_bvals, num_coeff, rows. auto.
Qed.


End Script.

Lemma finished_run_shapes_witness :
  exists (num_bvals num_coeff : nat) (rows : list (list float)),
    same_shape Sample.readlines
      (inputs ["average_response"; "a.txt"; "b.txt"; "out.txt"]%string)
      num_bvals num_coeff
    /\ ["2.00000 2.00000 2.00000 " ++ Sample.newline;
        "5.00000 5.00000 5.00000 " ++ Sample.newline]%string
       = map (line_out Sample.format_5f) rows
    /\ table num_bvals num_coeff rows.
Proof.
  apply (finished_run_shapes Sample.readlines Sample.writable
           Sample.float_of_string Sample.float_of_int Sample.str Sample.format_5f
           ["average_response"; "a.txt"; "b.txt"; "out.txt"]%string).
  vm_compute. reflexivity.
Defined.


End AverageResponseFacts.
